(** * kukri (git cactus): release-branch cutting and patch tagging

    A shallow embedding of [src/index.js] and of the parts of its npm
    dependencies that decide its behaviour.

    - [Semver]: the functions of the [semver] package the planner calls
      ([inc], [major], [minor], [prerelease]) and the ordering [gt], over
      version strings.
    - [Cactus]: [getCreds], [makeGitOpts], [getVersion],
      [generateNextVersion], [approveDiff], [cutReleaseBranch],
      [tagVersion] and [wrap], written in a small state-and-exception
      monad.  Every call that leaves the process (git, the credential
      helper, the file system, the prompt, [npm version], the logger)
      appends an event to a trace and takes its answer from a [World].
      The end of the process of the [cut] command, where the [tmp] package
      removes the scratch directories it made, is [process_exit].
    - [Observe], [Plan], [Survey]: the vocabulary of the statements.
    - [Samples]: concrete worlds.

    Strings are byte strings; the version strings and URLs of interest are
    ASCII, where JavaScript's UTF-16 code units and bytes coincide. *)

From Stdlib Require Import Arith NArith String Ascii List Bool Lia.
From Stdlib Require Import DecimalString DecimalN DecimalFacts.
Import ListNotations.

Open Scope string_scope.
Open Scope N_scope.

(** ** Characters and strings *)

Definition is_digit (c : ascii) : bool :=
  let n := N_of_ascii c in (48 <=? n) && (n <=? 57).

Definition is_letter (c : ascii) : bool :=
  let n := N_of_ascii c in
  ((65 <=? n) && (n <=? 90)) || ((97 <=? n) && (n <=? 122)).

(** The class [[0-9A-Za-z-]]. *)
Definition is_idchar (c : ascii) : bool :=
  is_digit c || is_letter c || Ascii.eqb c "-".

(** White space removed by [String.prototype.trim] (ASCII part). *)
Definition is_ws (c : ascii) : bool :=
  let n := N_of_ascii c in ((9 <=? n) && (n <=? 13)) || (n =? 32).

Fixpoint all_chars (p : ascii -> bool) (s : string) : bool :=
  match s with
  | EmptyString => true
  | String c r => p c && all_chars p r
  end.

Definition is_not (c : ascii) : ascii -> bool := fun x => negb (Ascii.eqb x c).

(** [/^[0-9]+$/.test(s)] *)
Definition all_digits (s : string) : bool :=
  negb (s =? "")%string && all_chars is_digit s.

Fixpoint ltrim (s : string) : string :=
  match s with
  | String c r => if is_ws c then ltrim r else s
  | EmptyString => EmptyString
  end.

Fixpoint rtrim (s : string) : string :=
  match s with
  | EmptyString => EmptyString
  | String c r =>
      let r' := rtrim r in
      if is_ws c && (r' =? "")%string then EmptyString else String c r'
  end.

Definition trim (s : string) : string := rtrim (ltrim s).

(** [s.split(c)] for a one-character separator: never the empty list. *)
Fixpoint split_on (c : ascii) (s : string) : list string :=
  match s with
  | EmptyString => [EmptyString]
  | String x r =>
      if Ascii.eqb x c then EmptyString :: split_on c r
      else match split_on c r with
           | h :: t => String x h :: t
           | [] => [String x EmptyString]
           end
  end.

(** [l.join(sep)] *)
Fixpoint join (sep : string) (l : list string) : string :=
  match l with
  | [] => EmptyString
  | [x] => x
  | x :: r => x ++ sep ++ join sep r
  end.

(** The text before the first [c], and the text after it when there is one. *)
Fixpoint cut_at (c : ascii) (s : string) : string * option string :=
  match s with
  | EmptyString => (EmptyString, None)
  | String x r =>
      if Ascii.eqb x c then (EmptyString, Some r)
      else let '(a, b) := cut_at c r in (String x a, b)
  end.

(** Decimal rendering of a non-negative integer, as [String(n)] gives it
    for the integers that occur here (all below 1e21). *)
Definition dec (n : N) : string := NilEmpty.string_of_uint (N.to_uint n).

(** Value of a string of decimal digits; [None] when some character is not a
    digit. *)
Definition digits_value (s : string) : option N :=
  option_map N.of_uint (NilEmpty.uint_of_string s).

(** ** JavaScript numbers

    Every number the program handles is a non-negative integer.  Integers
    up to 2^53 are exact; a longer digit string converted with unary [+]
    is rounded to the nearest double (ties to even).  Only digit strings of
    at most 256 characters reach the conversion, far below the overflow
    threshold of doubles. *)

Definition round_to_double (n : N) : N :=
  let k := N.log2 n in
  if k <? 53 then n
  else
    let sh := k - 52 in
    let q := N.shiftr n sh in
    let r := n - N.shiftl q sh in
    let half := N.shiftl 1 (sh - 1) in
    let up := if (half <? r) then true
              else if (r <? half) then false
              else N.odd q in
    N.shiftl (if up then q + 1 else q) sh.

(** [isNaN(Number(s))] for a string: [false] exactly when [s], trimmed, is
    empty or a StringNumericLiteral. *)
Definition is_exponent_tail (s : string) : bool :=
  match s with
  | String c r =>
      if (Ascii.eqb c "+" || Ascii.eqb c "-")%bool then all_digits r
      else all_digits s
  | EmptyString => false
  end.

Fixpoint span_digits (s : string) : string * string :=
  match s with
  | String c r =>
      if is_digit c then let '(a, b) := span_digits r in (String c a, b)
      else (EmptyString, s)
  | EmptyString => (EmptyString, EmptyString)
  end.

Definition opt_exponent (s : string) : bool :=
  match s with
  | EmptyString => true
  | String c r => (Ascii.eqb c "e" || Ascii.eqb c "E")%bool && is_exponent_tail r
  end.

Definition is_unsigned_decimal (s : string) : bool :=
  if (s =? "Infinity")%string then true
  else
    let '(ip, rest) := span_digits s in
    match rest with
    | String "." rest' =>
        let '(fp, rest'') := span_digits rest' in
        negb ((ip =? "") && (fp =? ""))%string && opt_exponent rest''
    | _ => negb (ip =? "")%string && opt_exponent rest
    end.

Definition is_hex_digit (c : ascii) : bool :=
  let n := N_of_ascii c in
  is_digit c || ((65 <=? n) && (n <=? 70)) || ((97 <=? n) && (n <=? 102)).

Definition is_radix_literal (s : string) : bool :=
  match s with
  | String "0" (String x r) =>
      negb (r =? "")%string &&
      (if (Ascii.eqb x "x" || Ascii.eqb x "X")%bool then all_chars is_hex_digit r
       else if (Ascii.eqb x "o" || Ascii.eqb x "O")%bool
            then all_chars (fun c => is_digit c && (N_of_ascii c <=? 55)) r
       else if (Ascii.eqb x "b" || Ascii.eqb x "B")%bool
            then all_chars (fun c => Ascii.eqb c "0" || Ascii.eqb c "1")%bool r
       else false)
  | _ => false
  end.

Definition string_isNaN (s : string) : bool :=
  let t := trim s in
  negb ((t =? "")%string
        || is_radix_literal t
        || match t with
           | String c r =>
               if (Ascii.eqb c "+" || Ascii.eqb c "-")%bool
               then is_unsigned_decimal r
               else is_unsigned_decimal t
           | EmptyString => false
           end).

(** ** Results of calls that may throw (or promises that may reject) *)

Inductive error : Type :=
| TypeError (msg : string)
| Error (msg : string).

Inductive result (A : Type) : Type :=
| Ok (a : A)
| Throw (e : error).
Arguments Ok {A} a.
Arguments Throw {A} e.

(** A JavaScript value that is a string, [null] or [undefined]: a version
    read from a manifest, the result of [semver.inc], an optional argument. *)
Inductive jsval : Type :=
| JUndefined
| JNull
| JStr (s : string).

(** [String(v)], as a template literal or [+] on strings applies it. *)
Definition to_String (v : jsval) : string :=
  match v with
  | JUndefined => "undefined"
  | JNull => "null"
  | JStr s => s
  end.

(** [if (v)] *)
Definition truthy (v : jsval) : bool :=
  match v with
  | JStr s => negb (s =? "")%string
  | _ => false
  end.

(** ** The [semver] package

    [index.js] requires the npm package [semver] and calls [semver.inc],
    [semver.major], [semver.minor] and [semver.prerelease]; the ordering of
    versions is [semver.gt].  The definitions below follow the package's
    strict (non-loose) mode: a version string is matched against the
    anchored expression FULL: an optional [v]; three numeric
    identifiers separated by dots; optionally [-] and dot-separated
    prerelease identifiers; optionally [+] and dot-separated build
    identifiers.  A numeric identifier is [0] or a digit string without a
    leading zero, a prerelease identifier is a numeric identifier or a
    non-empty string over [[0-9A-Za-z-]] with a character that is not a
    digit, a build identifier is any non-empty string over [[0-9A-Za-z-]].
    As numeric identifiers hold digits only and no identifier holds [+] or
    a dot, a string matches exactly when it splits at its first [+], then
    at the first [-] before it, then at the dots, into pieces of these
    shapes; [match_FULL] computes that split. *)

Module Semver.

Definition MAX_LENGTH : nat := 256.
Definition MAX_SAFE_INTEGER : N := 9007199254740991.

(** An element of a SemVer object's [prerelease] array. *)
Inductive ident : Type :=
| Num (n : N)
| Str (s : string).

Record SemVer : Type := mkSemVer {
  v_major : N;
  v_minor : N;
  v_patch : N;
  v_prerelease : list ident;
  v_build : list string
}.

Definition NUMERICIDENTIFIER (s : string) : bool :=
  match s with
  | String c r =>
      is_digit c && all_chars is_digit r
      && (negb (Ascii.eqb c "0") || (r =? "")%string)
  | EmptyString => false
  end.

Definition NONNUMERICIDENTIFIER (s : string) : bool :=
  all_chars is_idchar s && negb (all_chars is_digit s).

Definition PRERELEASEIDENTIFIER (s : string) : bool :=
  NUMERICIDENTIFIER s || NONNUMERICIDENTIFIER s.

Definition BUILDIDENTIFIER (s : string) : bool :=
  negb (s =? "")%string && all_chars is_idchar s.

(** The capture groups m[1] .. m[5] of a match of FULL. *)
Record groups : Type := mkGroups {
  m1 : string; m2 : string; m3 : string;
  m4 : option string; m5 : option string
}.

(** The optional leading [v]. *)
Definition strip_v (s : string) : string :=
  match s with
  | String "v" r => r
  | _ => s
  end.

Definition match_FULL (s : string) : option groups :=
  let s := strip_v s in
  let '(mp, b) := cut_at "+" s in
  let '(main, p) := cut_at "-" mp in
  match split_on "." main with
  | [x; y; z] =>
      if NUMERICIDENTIFIER x && NUMERICIDENTIFIER y && NUMERICIDENTIFIER z
         && match p with
            | Some ps => forallb PRERELEASEIDENTIFIER (split_on "." ps)
            | None => true
            end
         && match b with
            | Some bs => forallb BUILDIDENTIFIER (split_on "." bs)
            | None => true
            end
      then Some (mkGroups x y z p b)
      else None
  | _ => None
  end.

(** Unary [+] on a capture made of digits. *)
Definition to_num (s : string) : N :=
  match digits_value s with
  | Some n => round_to_double n
  | None => 0
  end.

(** "numberify any prerelease numeric ids" *)
Definition numberify (id : string) : ident :=
  if all_digits id
  then let num := to_num id in
       if num <? MAX_SAFE_INTEGER then Num num else Str id
  else Str id.

(** [new SemVer(version)] *)
Definition new_SemVer (version : jsval) : result SemVer :=
  match version with
  | JUndefined | JNull => Throw (TypeError ("Invalid Version: " ++ to_String version))
  | JStr version =>
      if Nat.ltb MAX_LENGTH (String.length version)
      then Throw (TypeError "version is longer than 256 characters")
      else match match_FULL (trim version) with
           | None => Throw (TypeError ("Invalid Version: " ++ version))
           | Some m =>
               let major := to_num (m1 m) in
               let minor := to_num (m2 m) in
               let patch := to_num (m3 m) in
               if MAX_SAFE_INTEGER <? major
               then Throw (TypeError "Invalid major version")
               else if MAX_SAFE_INTEGER <? minor
               then Throw (TypeError "Invalid minor version")
               else if MAX_SAFE_INTEGER <? patch
               then Throw (TypeError "Invalid patch version")
               else Ok (mkSemVer major minor patch
                          match m4 m with
                          | Some p => map numberify (split_on "." p)
                          | None => []
                          end
                          match m5 m with
                          | Some b => split_on "." b
                          | None => []
                          end)
           end
  end.

(** [String(x)] of an array element, as [join] and template literals apply it. *)
Definition show (i : ident) : string :=
  match i with
  | Num n => dec n
  | Str s => s
  end.

(** [SemVer.prototype.format]: the build metadata is not part of it. *)
Definition format (v : SemVer) : string :=
  dec (v_major v) ++ "." ++ dec (v_minor v) ++ "." ++ dec (v_patch v)
  ++ match v_prerelease v with
     | [] => ""
     | l => "-" ++ join "." (map show l)
     end.

Definition set_prerelease (v : SemVer) (l : list ident) : SemVer :=
  mkSemVer (v_major v) (v_minor v) (v_patch v) l (v_build v).

(** The loop of the ['pre'] case: the rightmost element that is a number is
    incremented; [None] when no element is a number. *)
Fixpoint inc_rightmost (l : list ident) : option (list ident) :=
  match l with
  | [] => None
  | x :: r =>
      match inc_rightmost r with
      | Some r' => Some (x :: r')
      | None =>
          match x with
          | Num n => Some (Num (n + 1) :: r)
          | Str _ => None
          end
      end
  end.

(** [a === b] *)
Definition strict_eq (a b : ident) : bool :=
  match a, b with
  | Num x, Num y => x =? y
  | Str x, Str y => (x =? y)%string
  | _, _ => false
  end.

(** [isNaN(this.prerelease[1])] *)
Definition isNaN_at1 (l : list ident) : bool :=
  match l with
  | _ :: Num _ :: _ => false
  | _ :: Str s :: _ => string_isNaN s
  | _ => true
  end.

(** [this.inc('pre', identifier)] *)
Definition inc_pre (v : SemVer) (identifier : jsval) : SemVer :=
  let pr :=
    match v_prerelease v with
    | [] => [Num 0]
    | l => match inc_rightmost l with
           | Some l' => l'
           | None => (l ++ [Num 0])%list
           end
    end in
  set_prerelease v
    match identifier with
    | JStr id =>
        if truthy identifier then
          if match pr with x :: _ => strict_eq x (Str id) | [] => false end
          then if isNaN_at1 pr then [Str id; Num 0] else pr
          else [Str id; Num 0]
        else pr
    | _ => pr
    end.

(** [this.inc('patch', identifier)] *)
Definition inc_patch (v : SemVer) : SemVer :=
  mkSemVer (v_major v) (v_minor v)
    (match v_prerelease v with [] => v_patch v + 1 | _ => v_patch v end)
    [] (v_build v).

(** [SemVer.prototype.inc]; the default case throws. *)
Definition inc_release (v : SemVer) (release : string)
    (identifier : jsval) : result SemVer :=
  if (release =? "premajor")%string then
    Ok (inc_pre (mkSemVer (v_major v + 1) 0 0 [] (v_build v)) identifier)
  else if (release =? "preminor")%string then
    Ok (inc_pre (mkSemVer (v_major v) (v_minor v + 1) 0 [] (v_build v)) identifier)
  else if (release =? "prepatch")%string then
    Ok (inc_pre (inc_patch (set_prerelease v [])) identifier)
  else if (release =? "prerelease")%string then
    Ok (inc_pre match v_prerelease v with
                | [] => inc_patch v
                | _ => v
                end identifier)
  else if (release =? "major")%string then
    Ok (mkSemVer
          (if negb (v_minor v =? 0) || negb (v_patch v =? 0)
              || match v_prerelease v with [] => true | _ => false end
           then v_major v + 1 else v_major v)
          0 0 [] (v_build v))
  else if (release =? "minor")%string then
    Ok (mkSemVer (v_major v)
          (if negb (v_patch v =? 0)
              || match v_prerelease v with [] => true | _ => false end
           then v_minor v + 1 else v_minor v)
          0 [] (v_build v))
  else if (release =? "patch")%string then Ok (inc_patch v)
  else if (release =? "pre")%string then Ok (inc_pre v identifier)
  else Throw (Error ("invalid increment argument: " ++ release)).

(** [semver.inc(version, release, loose, identifier)] called with three
    arguments: a third argument that is a string is the identifier, any
    other leaves the identifier undefined.  [null] when anything throws. *)
Definition inc (version : jsval) (release : string) (loose : jsval) : jsval :=
  let identifier := match loose with JStr _ => loose | _ => JUndefined end in
  match new_SemVer version with
  | Ok v =>
      match inc_release v release identifier with
      | Ok v' => JStr (format v')
      | Throw _ => JNull
      end
  | Throw _ => JNull
  end.

Definition major (version : jsval) : result N :=
  match new_SemVer version with
  | Ok v => Ok (v_major v)
  | Throw e => Throw e
  end.

Definition minor (version : jsval) : result N :=
  match new_SemVer version with
  | Ok v => Ok (v_minor v)
  | Throw e => Throw e
  end.

(** [semver.parse(version)]: [null] unless the string as given (not
    trimmed) matches FULL and [new SemVer] accepts it. *)
Definition parse (version : jsval) : option SemVer :=
  match version with
  | JStr s =>
      if Nat.ltb MAX_LENGTH (String.length s) then None
      else match match_FULL s with
           | None => None
           | Some _ =>
               match new_SemVer version with
               | Ok v => Some v
               | Throw _ => None
               end
           end
  | _ => None
  end.

(** [semver.prerelease(version)]: the array, or [null] when the version does
    not parse or has no prerelease component. *)
Definition prerelease (version : jsval) : option (list ident) :=
  match parse version with
  | Some v => match v_prerelease v with [] => None | l => Some l end
  | None => None
  end.

(** *** Ordering *)

Definition numeric_test (a : ident) : bool :=
  match a with
  | Num _ => true
  | Str s => all_digits s
  end.

Definition as_number (a : ident) : N :=
  match a with
  | Num n => n
  | Str s => to_num s
  end.

Definition compareIdentifiers (a b : ident) : comparison :=
  let anum := numeric_test a in
  let bnum := numeric_test b in
  if anum && bnum then as_number a ?= as_number b
  else if anum && negb bnum then Lt
  else if bnum && negb anum then Gt
  else String.compare (show a) (show b).

(** [a || b] on comparison results: the first that is not 0. *)
Definition or_else (a b : comparison) : comparison :=
  match a with
  | Eq => b
  | _ => a
  end.

Definition compareMain (v o : SemVer) : comparison :=
  or_else (compareIdentifiers (Num (v_major v)) (Num (v_major o)))
    (or_else (compareIdentifiers (Num (v_minor v)) (Num (v_minor o)))
       (compareIdentifiers (Num (v_patch v)) (Num (v_patch o)))).

Fixpoint comparePre_loop (a b : list ident) : comparison :=
  match a, b with
  | [], [] => Eq
  | _ :: _, [] => Gt
  | [], _ :: _ => Lt
  | x :: a', y :: b' =>
      if strict_eq x y then comparePre_loop a' b'
      else compareIdentifiers x y
  end.

Definition comparePre (v o : SemVer) : comparison :=
  match v_prerelease v, v_prerelease o with
  | _ :: _, [] => Lt
  | [], _ :: _ => Gt
  | [], [] => Eq
  | a, b => comparePre_loop a b
  end.

Definition compare_obj (v o : SemVer) : comparison :=
  if (format v =? format o)%string then Eq
  else or_else (compareMain v o) (comparePre v o).

(** [semver.compare(a, b)] *)
Definition compare (a b : jsval) : result comparison :=
  match new_SemVer a with
  | Ok v =>
      match new_SemVer b with
      | Ok o => Ok (compare_obj v o)
      | Throw e => Throw e
      end
  | Throw e => Throw e
  end.


End Semver.

(** ** The program: [src/index.js] *)

Module Cactus.

(** *** Collaborators

    A repository object is known by the path it was opened at or cloned
    into; a remote by the repository it was looked up in, its name and its
    URL. *)

Inductive Repository : Type :=
| RepoAt (path : string).

Record Remote : Type := mkRemote {
  remote_repo : Repository;
  remote_name : string;
  url : string
}.

(** What the credential helper's [fill] resolves with. *)
Record Credentials : Type := mkCredentials {
  username : jsval;
  password : jsval
}.

(** The two credential callbacks [makeGitOpts] can install. *)
Inductive cred_callback : Type :=
| userpassPlaintextNew (user pass : jsval)
| sshKeyFromAgent.

(** The options object of [makeGitOpts]: its [callbacks] hold
    [certificateCheck] (a constant function) and [credentials], and nothing
    else; in particular no callback receives the per-reference results of
    a push. *)
Record GitOpts : Type := mkGitOpts {
  certificateCheck : N;
  credentials : cred_callback
}.

Record Commit : Type := mkCommit {
  sha : string;
  message : string;
  author : string;
  committer : string;
  date : string
}.

(** How a [remote.push] settles: the promise rejects, or it resolves, in
    which case the references the remote refused are only reported to a
    [pushUpdateReference] callback, were one installed. *)
Inductive push_outcome : Type :=
| PushRejects (e : error)
| PushResolves (refused : list string).

(** Calls that leave the process, in the order they are made. *)
Inductive event : Type :=
| EvRepositoryOpen (path : string)
| EvGetRemote (repo : Repository) (name : string)
| EvGchAvailable
| EvGchFill (url : string) (silent : bool)
| EvTmpDirSync (unsafeCleanup : bool) (name : string)
| EvClone (url path : string) (fetchOpts : GitOpts)
| EvRequirePackage (path : string)
| EvRevwalk (repo : Repository) (range : string)
| EvConsoleLog (line : string)
| EvPrompt (message : string) (default : bool)
| EvExecSync (cmd : string) (cwd : option string)
| EvRefreshIndex (repo : Repository)
| EvPush (remote : Remote) (refSpecs : list string) (opts : GitOpts)
| EvLogger (level : string) (args : list string).

(** The answers of the world outside the process. *)
Record World : Type := mkWorld {
  w_cwd : string;
  w_open : string -> result unit;
  w_remote : Repository -> string -> result string;
  w_gchAvailable : result bool;
  w_gchFill : string -> result Credentials;
  w_tmpdir : result string;
  w_clone : string -> string -> result unit;
  w_version : string -> result jsval;
  w_revwalk : Repository -> string -> result (list Commit);
  w_answer : option bool;
  w_exec : string -> option string -> result unit;
  w_push : Remote -> list string -> push_outcome
}.

(** The state a run threads: the trace of calls so far, and the scratch
    directories present on disk. *)
Record State : Type := mkState {
  trace : list event;
  dirs : list string
}.

Definition initial : State := mkState [] [].

(** *** A state-and-exception monad for [async] functions

    Each [await] runs the awaited call to completion before the next
    statement; a rejected promise or a thrown error ends the function. *)

Definition M (A : Type) : Type := State -> result A * State.

Definition ret {A} (a : A) : M A := fun st => (Ok a, st).

Definition throw {A} (e : error) : M A := fun st => (Throw e, st).

Definition bind {A B} (c : M A) (k : A -> M B) : M B :=
  fun st =>
    match c st with
    | (Ok a, st') => k a st'
    | (Throw e, st') => (Throw e, st')
    end.

Definition emit (e : event) : M unit :=
  fun st => (Ok tt, mkState (trace st ++ [e]) (dirs st)).

Definition lift {A} (r : result A) : M A := fun st => (r, st).

Notation "x <- c1 ;; c2" := (bind c1 (fun x => c2))
  (at level 61, c1 at next level, right associativity).
Notation "c1 ;; c2" := (bind c1 (fun _ => c2))
  (at level 61, right associativity).

Definition dquote : string := String (ascii_of_N 34) EmptyString.

Record Args : Type := mkArgs {
  upstream : string;
  level : string;
  preid : jsval
}.

Record VersionInfo : Type := mkVersionInfo {
  version : jsval;
  minorVer : string;
  releaseBranchName : string
}.

Record Approval : Type := mkApproval { lgtm : bool }.

(** [generateNextVersion(currentVersion, level, preId)] *)
Definition generateNextVersion (currentVersion : jsval) (level : string)
    (preId : jsval) : result VersionInfo :=
  let version := Semver.inc currentVersion level preId in
  match Semver.major version with
  | Throw e => Throw e
  | Ok major =>
      match Semver.minor version with
      | Throw e => Throw e
      | Ok minor =>
          let minorVer := "v" ++ dec major ++ "." ++ dec minor in
          let prerelease := Semver.prerelease version in
          let releaseBranchName := "release-" ++ minorVer in
          let releaseBranchName :=
            match prerelease with
            | Some l =>
                releaseBranchName ++ "-"
                ++ match l with
                   | x :: _ => Semver.show x
                   | [] => "undefined"
                   end
            | None => releaseBranchName
            end in
          Ok (mkVersionInfo version minorVer releaseBranchName)
      end
  end.

(** [makeGitOpts(credentials)] *)
Definition makeGitOpts (creds : option Credentials) : GitOpts :=
  mkGitOpts 1
    match creds with
    | Some c => userpassPlaintextNew (username c) (password c)
    | None => sshKeyFromAgent
    end.

(** [inquirer]'s confirm prompt: the answer typed, or the default. *)
Definition confirm (default : bool) (answer : option bool) : bool :=
  match answer with
  | Some b => b
  | None => default
  end.

Section Run.

Variable w : World.

Definition Repository_open (path : string) : M Repository :=
  emit (EvRepositoryOpen path) ;;
  lift (w_open w path) ;;
  ret (RepoAt path).

Definition getRemote (repo : Repository) (name : string) : M Remote :=
  emit (EvGetRemote repo name) ;;
  u <- lift (w_remote w repo name) ;;
  ret (mkRemote repo name u).

Definition gchAvailable : M bool :=
  emit EvGchAvailable ;;
  lift (w_gchAvailable w).

Definition gchFill (u : string) (silent : bool) : M Credentials :=
  emit (EvGchFill u silent) ;;
  lift (w_gchFill w u).

(** [tmp.dirSync({ unsafeCleanup: true })]: the directory exists from here
    on, and [tmp] keeps its remove callback for the end of the process
    (see [process_exit] below).  The handle's [removeCallback], which would
    remove the directory earlier, is called nowhere in [index.js]. *)
Definition tmp_dirSync (unsafeCleanup : bool) : M string :=
  fun st =>
    match w_tmpdir w with
    | Ok name =>
        (Ok name,
         mkState (trace st ++ [EvTmpDirSync unsafeCleanup name])
                 (name :: dirs st))
    | Throw e => (Throw e, st)
    end.

Definition Clone (u path : string) (fetchOpts : GitOpts) : M Repository :=
  emit (EvClone u path fetchOpts) ;;
  lift (w_clone w u path) ;;
  ret (RepoAt path).

Definition logger_info (args : list string) : M unit :=
  emit (EvLogger "info" args).

Definition console_log (line : string) : M unit :=
  emit (EvConsoleLog line).

Definition execSync (cmd : string) (cwd : option string) : M unit :=
  emit (EvExecSync cmd cwd) ;;
  lift (w_exec w cmd cwd).

(** [remote.push(refSpecs, opts)]: what the promise resolves with is not
    looked at by either caller. *)
Definition push (remote : Remote) (refSpecs : list string) (opts : GitOpts)
    : M unit :=
  emit (EvPush remote refSpecs opts) ;;
  match w_push w remote refSpecs with
  | PushRejects e => throw e
  | PushResolves _ => ret tt
  end.

(** [getCreds(remote)] *)
Definition getCreds (remote : Remote) : M (option Credentials) :=
  let url := url remote in
  credentialHelperAvailable <- gchAvailable ;;
  if String.prefix "git" url then ret None
  else if negb credentialHelperAvailable then
    throw (Error "Using https remote but git credentials helper not available!")
  else
    c <- gchFill url true ;;
    ret (Some c).

(** [getVersion(repoPath)] *)
Definition getVersion (repoPath : jsval) : M jsval :=
  let repoPath := if truthy repoPath then to_String repoPath else w_cwd w in
  emit (EvRequirePackage (repoPath ++ "/package.json")) ;;
  lift (w_version w (repoPath ++ "/package.json")).

Fixpoint forEach {A} (l : list A) (f : A -> M unit) : M unit :=
  match l with
  | [] => ret tt
  | x :: r => f x ;; forEach r f
  end.

(** [approveDiff(repo, currentVersion, nextVersion)] *)
Definition approveDiff (repo : Repository) (currentVersion nextVersion : jsval)
    : M Approval :=
  let endRange :=
    if truthy nextVersion then "v" ++ to_String nextVersion else "master" in
  let range := "v" ++ to_String currentVersion ++ ".." ++ endRange in
  emit (EvRevwalk repo range) ;;
  commits <- lift (w_revwalk w repo range) ;;
  console_log ("--- START COMMIT LOG " ++ range ++ " ---") ;;
  forEach commits (fun commit =>
    console_log ("[" ++ date commit ++ "] (" ++ author commit ++ ") "
                 ++ message commit)) ;;
  console_log ("--- END COMMIT LOG " ++ range ++ " ---") ;;
  emit (EvPrompt "Does the commit log look good?" false) ;;
  ret (mkApproval (confirm false (w_answer w))).

(** [cutReleaseBranch(args)] *)
Definition cutReleaseBranch (args : Args) : M string :=
  repo <- Repository_open "." ;;
  remote <- getRemote repo (upstream args) ;;
  credentials <- getCreds remote ;;
  let url := url remote in
  tmpdir <- tmp_dirSync true ;;
  let options := makeGitOpts credentials in
  clonedRepo <- Clone url tmpdir options ;;
  clonedRemote <- getRemote clonedRepo "origin" ;;
  currentVersion <- getVersion (JStr tmpdir) ;;
  versionInfo <- lift (generateNextVersion currentVersion (level args) (preid args)) ;;
  logger_info ["Incrementing"; to_String currentVersion; "to";
               to_String (version versionInfo)] ;;
  logger_info ["Cutting branch"; releaseBranchName versionInfo] ;;
  approval <- approveDiff repo currentVersion JUndefined ;;
  execSync ("npm version " ++ level args ++ " -m " ++ dquote ++ "Release v%s"
            ++ dquote) (Some tmpdir) ;;
  emit (EvRefreshIndex repo) ;;
  if negb (lgtm approval) then
    ret "Aborted branch cut! Phew, that was a close one..."
  else
    logger_info ["Pushing branch " ++ releaseBranchName versionInfo
                 ++ " & tag v" ++ to_String (version versionInfo)] ;;
    push clonedRemote
      [ "refs/heads/master:refs/heads/master";
        "refs/heads/master:refs/heads/" ++ releaseBranchName versionInfo;
        "refs/tags/v" ++ to_String (version versionInfo) ++ ":refs/tags/v"
          ++ to_String (version versionInfo) ]
      (makeGitOpts credentials) ;;
    ret "Done!".

(** [tagVersion(args)] *)
Definition tagVersion (args : Args) : M string :=
  repo <- Repository_open "." ;;
  remote <- getRemote repo (upstream args) ;;
  credentials <- getCreds remote ;;
  currentVersion <- getVersion JUndefined ;;
  versionInfo <- lift (generateNextVersion currentVersion "patch" JUndefined) ;;
  execSync ("npm version patch -m " ++ dquote ++ "Release v%s" ++ dquote) None ;;
  logger_info ["Tagging version"; to_String (version versionInfo)] ;;
  approval <- approveDiff repo currentVersion (version versionInfo) ;;
  if negb (lgtm approval) then
    ret "Aborted push! Local changes not reverted, you must now do surgery!"
  else
    logger_info ["Pushing tagged version"; to_String (version versionInfo)] ;;
    push remote
      [ "refs/heads/" ++ releaseBranchName versionInfo ++ ":refs/heads/"
          ++ releaseBranchName versionInfo;
        "refs/tags/v" ++ to_String (version versionInfo) ++ ":refs/tags/v"
          ++ to_String (version versionInfo) ]
      (makeGitOpts credentials) ;;
    ret "Done!".

(** [wrap(fn)]: the outcome message goes to [logger.info], a rejection to
    [logger.error]. *)
Definition error_text (e : error) : string :=
  match e with
  | TypeError m => "TypeError: " ++ m
  | Error m => "Error: " ++ m
  end.

Definition wrap (fn : Args -> M string) (args : Args) : State -> State :=
  fun st =>
    match fn args st with
    | (Ok msg, st') => snd (emit (EvLogger "info" [msg]) st')
    | (Throw e, st') => snd (emit (EvLogger "error" [error_text e]) st')
    end.

(** *** The end of the process

    What removes a scratch directory is the listener the [tmp] package
    (0.0.x, where it is armed without [setGracefulCleanup]) keeps on the
    [exit] event of the process.  With exit code 0 it calls the remove
    callback of every directory [dirSync] made (none is made with [keep]):
    for a directory made with [unsafeCleanup] the callback removes it with
    all it holds; for any other it is [fs.rmdirSync], which removes an empty
    directory only and whose failure is swallowed.  With another exit code
    the listener removes nothing.  [empty] tells which directories hold
    nothing by then. *)




End Run.

End Cactus.

(** ** Observations on runs *)

Module Observe.
Import Cactus.

Definition extend (st : State) (evs : list event) : State :=
  mkState (trace st ++ evs) (dirs st).

(** The range string [approveDiff] walks. *)
Definition range_of (currentVersion nextVersion : jsval) : string :=
  "v" ++ to_String currentVersion ++ ".."
  ++ (if truthy nextVersion then "v" ++ to_String nextVersion else "master").

Definition commit_line (commit : Commit) : string :=
  "[" ++ date commit ++ "] (" ++ author commit ++ ") " ++ message commit.

(** What a review that gets its commits shows and asks. *)
Definition review_events (repo : Repository) (range : string)
    (commits : list Commit) : list event :=
  [EvRevwalk repo range;
   EvConsoleLog ("--- START COMMIT LOG " ++ range ++ " ---")]
  ++ map (fun c => EvConsoleLog (commit_line c)) commits
  ++ [EvConsoleLog ("--- END COMMIT LOG " ++ range ++ " ---");
      EvPrompt "Does the commit log look good?" false].

(** The pushes of a trace: remote, refspecs and options, in order. *)
Fixpoint pushes (t : list event) : list (Remote * list string * GitOpts) :=
  match t with
  | [] => []
  | EvPush r refs o :: t' => (r, refs, o) :: pushes t'
  | _ :: t' => pushes t'
  end.

(** Calls that reach the remote repository: a clone or a push. *)
Definition is_network (e : event) : bool :=
  match e with
  | EvClone _ _ _ | EvPush _ _ _ => true
  | _ => false
  end.

(** Calls to the credential helper. *)
Definition is_helper (e : event) : bool :=
  match e with
  | EvGchAvailable | EvGchFill _ _ => true
  | _ => false
  end.

(** The repositories whose history a trace walks. *)
Fixpoint walked (t : list event) : list (Repository * string) :=
  match t with
  | [] => []
  | EvRevwalk r range :: t' => (r, range) :: walked t'
  | _ :: t' => walked t'
  end.

Definition cut_aborted : string :=
  "Aborted branch cut! Phew, that was a close one...".

Definition tag_aborted : string :=
  "Aborted push! Local changes not reverted, you must now do surgery!".

Definition helper_unavailable : error :=
  Error "Using https remote but git credentials helper not available!".

(** The scratch directories a trace creates, latest first. *)
Fixpoint created (t : list event) : list string :=
  match t with
  | [] => []
  | EvTmpDirSync _ name :: t' => (created t' ++ [name])%list
  | _ :: t' => created t'
  end.

(** Whether a trace reached the confirmation prompt. *)
Definition asked (t : list event) : bool :=
  existsb (fun e => match e with EvPrompt _ _ => true | _ => false end) t.

(** The lines a trace wrote to the console. *)
Fixpoint console (t : list event) : list string :=
  match t with
  | [] => []
  | EvConsoleLog line :: t' => line :: console t'
  | _ :: t' => console t'
  end.

(** The command line of the version bump in a cut. *)
Definition bump_command (args : Args) : string :=
  "npm version " ++ level args ++ " -m " ++ dquote ++ "Release v%s" ++ dquote.

(** Credential resolution came first in a trace [t] of a workflow run: [t]
    splits into a part without any clone or push and a part without any
    call to the credential helper, and the second part is empty unless
    [getCreds] returned credentials (or [null]) for the upstream remote. *)
Definition credentials_first (w : World) (args : Args) (t : list event) : Prop :=
  exists pre post,
    t = (pre ++ post)%list
    /\ filter is_network pre = []
    /\ filter is_helper post = []
    /\ (post <> [] ->
        In EvGchAvailable pre
        /\ exists u creds,
            w_remote w (RepoAt ".") (upstream args) = Ok u
            /\ fst (getCreds w (mkRemote (RepoAt ".") (upstream args) u) initial)
               = Ok creds).

End Observe.

(** ** Vocabulary for version strings and plans *)

Module Plan.
Import Semver Cactus.

(** The six levels of the planner's contract. *)
Definition levels : list string :=
  ["major"; "minor"; "patch"; "premajor"; "preminor"; "prerelease"].

(** The two halves of a formatted version. *)
Definition main_part (x : SemVer) : string :=
  dec (v_major x) ++ "." ++ dec (v_minor x) ++ "." ++ dec (v_patch x).

Definition pre_part (x : SemVer) : option string :=
  match v_prerelease x with
  | [] => None
  | l => Some (join "." (map show l))
  end.

(** Every element of a prerelease array prints as a prerelease identifier. *)
Definition shown_valid (l : list ident) : Prop :=
  Forall (fun i => PRERELEASEIDENTIFIER (show i) = true) l.

(** An element as [new SemVer] stores it: reading its printed form gives
    it back. *)
Definition canonical (i : ident) : Prop :=
  PRERELEASEIDENTIFIER (show i) = true /\ numberify (show i) = i.

(** What holds of every object [new SemVer] returns. *)
Record well_formed (v : SemVer) : Prop := mk_well_formed {
  wf_major : v_major v <= MAX_SAFE_INTEGER;
  wf_minor : v_minor v <= MAX_SAFE_INTEGER;
  wf_patch : v_patch v <= MAX_SAFE_INTEGER;
  wf_prerelease : Forall canonical (v_prerelease v)
}.

(** The object [new SemVer] builds from the formatted version of [x]: the
    build metadata is gone and the prerelease elements are read anew. *)
Definition reread (x : SemVer) : SemVer :=
  mkSemVer (v_major x) (v_minor x) (v_patch x)
    (map (fun i => numberify (show i)) (v_prerelease x)) [].

(** The limits of [new SemVer]: no component beyond 2^53 - 1 and no more
    than 256 characters. *)
Definition within_limits (x : SemVer) : bool :=
  (v_major x <=? MAX_SAFE_INTEGER) && (v_minor x <=? MAX_SAFE_INTEGER)
  && (v_patch x <=? MAX_SAFE_INTEGER)
  && Nat.leb (String.length (format x)) MAX_LENGTH.



(** The names the specification derives from the next version [next]:
    the label [v<major>.<minor>], and the branch [release-<label>] with
    [-<first prerelease identifier>] appended when there is a prerelease
    component. *)
Definition spec_names (next : SemVer) (info : VersionInfo) : Prop :=
  minorVer info = "v" ++ dec (v_major next) ++ "." ++ dec (v_minor next)
  /\ releaseBranchName info
     = ("release-" ++ minorVer info)
       ++ match v_prerelease next with
          | [] => ""
          | i :: _ => "-" ++ show i
          end.

End Plan.

(** ** Sample worlds *)

Module Samples.
Import Cactus.

Definition c1 : Commit :=
  mkCommit "a1b2c3" "Fix parser" "Ada" "Ada" "Mon Mar 05 2018 10:00:00".
Definition c2 : Commit :=
  mkCommit "d4e5f6" "Add feature" "Bob" "Bob" "Tue Mar 06 2018 11:00:00".

Definition scratch : string := "/tmp/tmp-4211".

(** An ssh remote; the local checkout is one commit behind the remote, so
    the clone's history after v2.4.0 holds [c2] and [c1], the local one
    only [c1]. *)
Definition ssh_world (answer : option bool) (pushed : push_outcome) : World :=
  mkWorld "/work"
    (fun _ => Ok tt)
    (fun _ _ => Ok "git@host:repo.git")
    (Ok false)
    (fun _ => Throw (Error "no helper"))
    (Ok scratch)
    (fun _ _ => Ok tt)
    (fun path =>
       if (path =? "/tmp/tmp-4211/package.json")%string then Ok (JStr "2.4.0")
       else Ok (JStr "2.5.0"))
    (fun repo range =>
       match repo with
       | RepoAt path =>
           if (path =? ".")%string then Ok [c1] else Ok [c2; c1]
       end)
    answer
    (fun _ _ => Ok tt)
    (fun _ _ => pushed).

Definition https_world (available : bool) : World :=
  mkWorld "/work"
    (fun _ => Ok tt)
    (fun _ _ => Ok "https://host/repo.git")
    (Ok available)
    (fun _ => Ok (mkCredentials (JStr "ada") (JStr "s3cret")))
    (Ok scratch)
    (fun _ _ => Ok tt)
    (fun _ => Ok (JStr "2.4.0"))
    (fun _ _ => Ok [c1])
    (Some true)
    (fun _ _ => Ok tt)
    (fun _ _ => PushResolves []).

Definition cut_minor : Args := mkArgs "origin" "minor" JUndefined.

(** The world [w], except that every shell command fails, as [npm version]
    does when the tag it is about to make exists already. *)
Definition failing_bump (w : World) : World :=
  mkWorld (w_cwd w) (w_open w) (w_remote w) (w_gchAvailable w) (w_gchFill w)
    (w_tmpdir w) (w_clone w) (w_version w) (w_revwalk w) (w_answer w)
    (fun _ _ => Throw (Error "Command failed: npm version minor"))
    (w_push w).

End Samples.

(** ** Further observations, for the rest of the program *)

Module Survey.
Import Semver Cactus.

(** The release types [SemVer.prototype.inc] knows. *)
Definition release_types : list string :=
  ["premajor"; "preminor"; "prepatch"; "prerelease";
   "major"; "minor"; "patch"; "pre"].

(** The levels at which an identifier is looked at. *)
Definition pre_levels : list string :=
  ["premajor"; "preminor"; "prepatch"; "prerelease"].

(** The suffix a prerelease array adds to a branch name. *)
Definition branch_suffix (l : list ident) : string :=
  match l with
  | [] => ""
  | i :: _ => "-" ++ show i
  end.

(** The clones of a trace: URL, path and fetch options. *)
Definition clones (t : list event) : list (string * string * GitOpts) :=
  flat_map (fun e => match e with
                     | EvClone u p o => [(u, p, o)]
                     | _ => []
                     end) t.

(** The options of every clone and push of a trace. *)
Definition network_opts (t : list event) : list GitOpts :=
  flat_map (fun e => match e with
                     | EvClone _ _ o | EvPush _ _ o => [o]
                     | _ => []
                     end) t.

(** The shell commands of a trace, with their working directory, and the
    prompts, in order. *)
Definition bumps_and_prompts (t : list event) : list event :=
  flat_map (fun e => match e with
                     | EvExecSync _ _ | EvPrompt _ _ => [e]
                     | _ => []
                     end) t.

(** The repository objects a trace calls git on. *)
Definition repositories (t : list event) : list Repository :=
  flat_map (fun e => match e with
                     | EvGetRemote r _ | EvRevwalk r _ | EvRefreshIndex r => [r]
                     | EvPush rm _ _ => [remote_repo rm]
                     | _ => []
                     end) t.

(** The manifests a trace reads. *)
Definition manifests (t : list event) : list string :=
  flat_map (fun e => match e with
                     | EvRequirePackage p => [p]
                     | _ => []
                     end) t.

(** The messages a trace logs at a given level. *)
Definition logged (lvl : string) (t : list event) : list (list string) :=
  flat_map (fun e => match e with
                     | EvLogger l args => if (l =? lvl)%string then [args] else []
                     | _ => []
                     end) t.

(** The command line of the version bump in a tag. *)
Definition tag_bump_command : string :=
  "npm version patch -m " ++ dquote ++ "Release v%s" ++ dquote.

End Survey.



(** * Facts *)

(** ** Strings *)

Lemma all_chars_app (p : ascii -> bool) (a b : string) :
  all_chars p (a ++ b) = all_chars p a && all_chars p b.
Proof.
  induction a as [|c a IH]; simpl; [reflexivity|].
  rewrite IH. now rewrite andb_assoc.
Qed.

Lemma all_chars_impl (p q : ascii -> bool) (s : string) :
  (forall c, p c = true -> q c = true) ->
  all_chars p s = true -> all_chars q s = true.
Proof.
  intros Hpq. induction s as [|c s IH]; simpl; [reflexivity|].
  intros H. apply andb_true_iff in H as [Hc Hs].
  now rewrite (Hpq _ Hc), (IH Hs).
Qed.

Lemma cut_at_absent (c : ascii) (a : string) :
  all_chars (is_not c) a = true -> cut_at c a = (a, None).
Proof.
  induction a as [|x a IH]; simpl; [reflexivity|].
  unfold is_not at 1. intros H. apply andb_true_iff in H as [Hx Ha].
  apply negb_true_iff in Hx. rewrite Hx, (IH Ha). reflexivity.
Qed.

Lemma cut_at_first (c : ascii) (a b : string) :
  all_chars (is_not c) a = true ->
  cut_at c (a ++ String c b) = (a, Some b).
Proof.
  induction a as [|x a IH]; simpl.
  - now rewrite Ascii.eqb_refl.
  - unfold is_not at 1. intros H. apply andb_true_iff in H as [Hx Ha].
    apply negb_true_iff in Hx. rewrite Hx, (IH Ha). reflexivity.
Qed.

Lemma split_on_absent (c : ascii) (a : string) :
  all_chars (is_not c) a = true -> split_on c a = [a].
Proof.
  induction a as [|x a IH]; simpl; [reflexivity|].
  unfold is_not at 1. intros H. apply andb_true_iff in H as [Hx Ha].
  apply negb_true_iff in Hx. rewrite Hx, (IH Ha). reflexivity.
Qed.

Lemma split_on_first (c : ascii) (a b : string) :
  all_chars (is_not c) a = true ->
  split_on c (a ++ String c b) = a :: split_on c b.
Proof.
  induction a as [|x a IH]; simpl.
  - now rewrite Ascii.eqb_refl.
  - unfold is_not at 1. intros H. apply andb_true_iff in H as [Hx Ha].
    apply negb_true_iff in Hx. rewrite Hx, (IH Ha). reflexivity.
Qed.

Lemma split_join (c : ascii) (l : list string) :
  l <> [] ->
  Forall (fun x => all_chars (is_not c) x = true) l ->
  split_on c (join (String c EmptyString) l) = l.
Proof.
  induction l as [|x l IH]; [congruence|].
  intros _ H. inversion H as [|? ? Hx Hl]; subst.
  destruct l as [|y l].
  - simpl. now apply split_on_absent.
  - change (join (String c "") (x :: y :: l))
      with (x ++ String c (join (String c "") (y :: l))).
    rewrite split_on_first by assumption.
    f_equal. apply IH; [discriminate | assumption].
Qed.

Lemma rtrim_no_ws (s : string) :
  all_chars (fun c => negb (is_ws c)) s = true -> rtrim s = s.
Proof.
  induction s as [|c s IH]; simpl; [reflexivity|].
  intros H. apply andb_true_iff in H as [Hc Hs].
  apply negb_true_iff in Hc. rewrite Hc, (IH Hs). reflexivity.
Qed.

Lemma trim_no_ws (s : string) :
  all_chars (fun c => negb (is_ws c)) s = true -> trim s = s.
Proof.
  intros H. unfold trim.
  assert (ltrim s = s) as ->.
  { destruct s as [|c s]; simpl in *; [reflexivity|].
    apply andb_true_iff in H as [Hc _]. apply negb_true_iff in Hc.
    now rewrite Hc. }
  now apply rtrim_no_ws.
Qed.

Lemma append_nil_r (s : string) : s ++ "" = s.
Proof. induction s; simpl; congruence. Qed.

Lemma append_assoc (a b c : string) : (a ++ b) ++ c = a ++ (b ++ c).
Proof. induction a; simpl; congruence. Qed.

(** Character classes, by enumeration of the 256 characters. *)

Lemma ascii_forall (P : ascii -> bool) :
  forallb P (map ascii_of_nat (seq 0 256)) = true -> forall c, P c = true.
Proof.
  intros H c. rewrite forallb_forall in H. apply H.
  rewrite <- (ascii_nat_embedding c). apply in_map, in_seq.
  pose proof (nat_ascii_bounded c). lia.
Qed.

Lemma char_impl (p q : ascii -> bool) :
  forallb (fun c => implb (p c) (q c)) (map ascii_of_nat (seq 0 256)) = true ->
  forall c, p c = true -> q c = true.
Proof.
  intros H c Hp. pose proof (ascii_forall _ H c) as Hc.
  simpl in Hc. now rewrite Hp in Hc.
Qed.

Ltac by_enumeration := apply char_impl; vm_compute; reflexivity.

Lemma digit_idchar c : is_digit c = true -> is_idchar c = true.
Proof. revert c. by_enumeration. Qed.

Lemma idchar_not_dot c : is_idchar c = true -> is_not "." c = true.
Proof. revert c. by_enumeration. Qed.

Lemma digit_not_v c : is_digit c = true -> is_not "v" c = true.
Proof. revert c. by_enumeration. Qed.

(** ** Decimal numerals *)

Lemma string_of_uint_digits (d : Decimal.uint) :
  all_chars is_digit (NilEmpty.string_of_uint d) = true.
Proof. induction d; simpl; auto. Qed.

Lemma dec_digits (n : N) : all_chars is_digit (dec n) = true.
Proof. apply string_of_uint_digits. Qed.

Lemma to_uint_normal (n : N) : Decimal.unorm (N.to_uint n) = N.to_uint n.
Proof.
  rewrite <- (DecimalN.Unsigned.to_of (N.to_uint n)).
  now rewrite DecimalN.Unsigned.of_to.
Qed.

Lemma unorm_NUMERIC (d : Decimal.uint) :
  Semver.NUMERICIDENTIFIER (NilEmpty.string_of_uint (Decimal.unorm d)) = true.
Proof.
  unfold Decimal.unorm.
  induction d; simpl; try reflexivity; try assumption;
    rewrite string_of_uint_digits; reflexivity.
Qed.

Lemma dec_NUMERIC (n : N) : Semver.NUMERICIDENTIFIER (dec n) = true.
Proof. unfold dec. rewrite <- to_uint_normal. apply unorm_NUMERIC. Qed.

Lemma dec_nonempty (n : N) : dec n <> "".
Proof.
  pose proof (dec_NUMERIC n) as H. intros E. rewrite E in H. discriminate.
Qed.

Lemma digits_value_dec (n : N) : digits_value (dec n) = Some n.
Proof.
  unfold digits_value, dec. rewrite NilEmpty.usu. simpl.
  now rewrite DecimalN.Unsigned.of_to.
Qed.


Lemma all_digits_dec (n : N) : all_digits (dec n) = true.
Proof.
  unfold all_digits. rewrite dec_digits, andb_true_r.
  apply negb_true_iff, String.eqb_neq, dec_nonempty.
Qed.

(** ** Numbers *)

Lemma round_to_double_exact (n : N) : n < 2 ^ 53 -> round_to_double n = n.
Proof.
  intros H. unfold round_to_double.
  destruct (N.eq_dec n 0) as [->|Hn]; [reflexivity|].
  assert (N.log2 n < 53) as Hl by (apply N.log2_lt_pow2; lia).
  apply N.ltb_lt in Hl. now rewrite Hl.
Qed.

Lemma to_num_dec (n : N) : n <= Semver.MAX_SAFE_INTEGER -> Semver.to_num (dec n) = n.
Proof.
  intros H. unfold Semver.to_num. rewrite digits_value_dec.
  apply round_to_double_exact. unfold Semver.MAX_SAFE_INTEGER in H. lia.
Qed.

Lemma to_num_dec_next : Semver.to_num (dec (Semver.MAX_SAFE_INTEGER + 1)) = 2 ^ 53.
Proof. vm_compute. reflexivity. Qed.

(** ** Version strings: writing a version and reading it back *)

Import Semver Cactus Observe Plan Samples.

Lemma NUMERIC_digits s : NUMERICIDENTIFIER s = true -> all_chars is_digit s = true.
Proof.
  destruct s as [|c r]; simpl; [discriminate|].
  intros H. apply andb_true_iff in H as [H _]. exact H.
Qed.

Lemma PRERELEASE_idchars s :
  PRERELEASEIDENTIFIER s = true -> all_chars is_idchar s = true.
Proof.
  unfold PRERELEASEIDENTIFIER, NONNUMERICIDENTIFIER. intros H.
  apply orb_true_iff in H as [H|H].
  - eapply all_chars_impl; [apply digit_idchar | now apply NUMERIC_digits].
  - now apply andb_true_iff in H as [H _].
Qed.

Lemma format_parts (x : SemVer) :
  format x = main_part x ++ match pre_part x with
                            | Some p => String "-" p
                            | None => ""
                            end.
Proof.
  unfold format, main_part, pre_part.
  rewrite !append_assoc. do 4 f_equal.
  destruct (v_prerelease x); reflexivity.
Qed.

Lemma main_part_digits_dots (x : SemVer) :
  all_chars (fun c => is_digit c || Ascii.eqb c ".")%bool (main_part x) = true.
Proof.
  unfold main_part. rewrite !all_chars_app. simpl.
  assert (forall n, all_chars (fun c => is_digit c || Ascii.eqb c ".")%bool (dec n) = true) as H.
  { intros n. eapply all_chars_impl; [|apply dec_digits].
    intros c Hc. now rewrite Hc. }
  now rewrite !H.
Qed.

Lemma digit_or_dot_not_dash c :
  (is_digit c || Ascii.eqb c ".")%bool = true -> is_not "-" c = true.
Proof. revert c. by_enumeration. Qed.

Lemma idchar_or_dot_not_plus c :
  (is_idchar c || Ascii.eqb c ".")%bool = true -> is_not "+" c = true.
Proof. revert c. by_enumeration. Qed.

Lemma idchar_or_dot_not_ws c :
  (is_idchar c || Ascii.eqb c ".")%bool = true -> negb (is_ws c) = true.
Proof. revert c. by_enumeration. Qed.

Lemma digit_or_dot_idchar_or_dot c :
  (is_digit c || Ascii.eqb c ".")%bool = true ->
  (is_idchar c || Ascii.eqb c ".")%bool = true.
Proof. revert c. by_enumeration. Qed.

Lemma join_idchars (l : list string) :
  Forall (fun s => all_chars is_idchar s = true) l ->
  all_chars (fun c => is_idchar c || Ascii.eqb c ".")%bool (join "." l) = true.
Proof.
  induction 1 as [|s l Hs Hl IH]; [reflexivity|].
  assert (all_chars (fun c => is_idchar c || Ascii.eqb c ".")%bool s = true) as Hs'.
  { eapply all_chars_impl; [|exact Hs]. intros c Hc. now rewrite Hc. }
  destruct l as [|y l]; [exact Hs'|].
  change (join "." (s :: y :: l)) with (s ++ String "." (join "." (y :: l))).
  rewrite all_chars_app. simpl in *. now rewrite Hs', IH.
Qed.

Lemma shown_idchars (l : list ident) :
  shown_valid l -> Forall (fun s => all_chars is_idchar s = true) (map show l).
Proof.
  intros H. apply Forall_map. eapply Forall_impl; [|exact H].
  intros i Hi. now apply PRERELEASE_idchars.
Qed.

Lemma format_chars (x : SemVer) :
  shown_valid (v_prerelease x) ->
  all_chars (fun c => is_idchar c || Ascii.eqb c ".")%bool (format x) = true.
Proof.
  intros H. rewrite format_parts, all_chars_app.
  rewrite (all_chars_impl _ _ _ digit_or_dot_idchar_or_dot (main_part_digits_dots x)).
  unfold pre_part. destruct (v_prerelease x) eqn:E; [reflexivity|].
  rewrite <- E in *. simpl. apply join_idchars. rewrite E in *.
  now apply shown_idchars.
Qed.

Lemma format_not_v (x : SemVer) : strip_v (format x) = format x.
Proof.
  unfold strip_v, format. pose proof (dec_NUMERIC (v_major x)) as H.
  destruct (dec (v_major x)) as [|c r]; [discriminate|].
  simpl in H. apply andb_true_iff in H as [H _]. apply andb_true_iff in H as [H _].
  apply digit_not_v in H. unfold is_not in H. apply negb_true_iff in H.
  simpl. destruct c as [[] [] [] [] [] [] [] []]; try reflexivity; discriminate.
Qed.

Lemma split_main (x : SemVer) :
  split_on "." (main_part x) = [dec (v_major x); dec (v_minor x); dec (v_patch x)].
Proof.
  assert (forall n, all_chars (is_not ".") (dec n) = true) as H.
  { intros n. eapply all_chars_impl; [|apply dec_digits].
    intros c Hc. apply idchar_not_dot. now apply digit_idchar. }
  unfold main_part.
  change (dec (v_major x) ++ "." ++ dec (v_minor x) ++ "." ++ dec (v_patch x))
    with (dec (v_major x) ++ String "." (dec (v_minor x) ++ String "." (dec (v_patch x)))).
  rewrite !split_on_first by apply H. now rewrite split_on_absent by apply H.
Qed.

Lemma split_pre (l : list ident) :
  l <> [] -> shown_valid l ->
  split_on "." (join "." (map show l)) = map show l.
Proof.
  intros Hl H. apply split_join.
  - destruct l; [congruence | discriminate].
  - apply Forall_map. eapply Forall_impl; [|exact H].
    intros i Hi. eapply all_chars_impl; [apply idchar_not_dot|].
    now apply PRERELEASE_idchars.
Qed.

Lemma match_FULL_format (x : SemVer) :
  shown_valid (v_prerelease x) ->
  match_FULL (format x)
  = Some (mkGroups (dec (v_major x)) (dec (v_minor x)) (dec (v_patch x))
            (pre_part x) None).
Proof.
  intros H. unfold match_FULL. rewrite format_not_v.
  rewrite cut_at_absent
    by (eapply all_chars_impl; [apply idchar_or_dot_not_plus | now apply format_chars]).
  rewrite format_parts.
  assert (all_chars (is_not "-") (main_part x) = true) as Hm
    by (eapply all_chars_impl; [apply digit_or_dot_not_dash | apply main_part_digits_dots]).
  unfold pre_part. destruct (v_prerelease x) as [|i l] eqn:E.
  - rewrite append_nil_r, cut_at_absent by exact Hm.
    rewrite split_main, !dec_NUMERIC. reflexivity.
  - rewrite cut_at_first by exact Hm.
    rewrite split_main, !dec_NUMERIC.
    rewrite split_pre by (congruence || assumption).
    assert (forallb PRERELEASEIDENTIFIER (map show (i :: l)) = true) as ->.
    { apply forallb_forall. intros s Hs. apply in_map_iff in Hs as (j & <- & Hj).
      unfold shown_valid in H. rewrite Forall_forall in H. now apply H. }
    reflexivity.
Qed.

Lemma trim_format (x : SemVer) :
  shown_valid (v_prerelease x) -> trim (format x) = format x.
Proof.
  intros H. apply trim_no_ws.
  eapply all_chars_impl; [apply idchar_or_dot_not_ws | now apply format_chars].
Qed.

(** ** What [new SemVer] accepts and returns *)

Lemma numberify_dec (n : N) :
  n < MAX_SAFE_INTEGER -> numberify (dec n) = Num n.
Proof.
  intros H. unfold numberify. rewrite all_digits_dec.
  rewrite to_num_dec by lia. apply N.ltb_lt in H. now rewrite H.
Qed.

Lemma PRERELEASE_dec (n : N) : PRERELEASEIDENTIFIER (dec n) = true.
Proof. unfold PRERELEASEIDENTIFIER. now rewrite dec_NUMERIC. Qed.

Lemma numberify_canonical (s : string) :
  PRERELEASEIDENTIFIER s = true -> canonical (numberify s).
Proof.
  intros H. unfold numberify.
  destruct (all_digits s) eqn:Hd.
  - destruct (to_num s <? MAX_SAFE_INTEGER) eqn:Hlt.
    + apply N.ltb_lt in Hlt. split; simpl.
      * apply PRERELEASE_dec.
      * now apply numberify_dec.
    + split; simpl; [exact H|]. unfold numberify. now rewrite Hd, Hlt.
  - split; simpl; [exact H|]. unfold numberify. now rewrite Hd.
Qed.

Lemma canonical_Num (n : N) : canonical (Num n) -> n < MAX_SAFE_INTEGER.
Proof.
  intros [_ H]. simpl in H. unfold numberify in H.
  rewrite all_digits_dec in H.
  destruct (to_num (dec n) <? MAX_SAFE_INTEGER) eqn:Hlt; [|discriminate].
  apply N.ltb_lt in Hlt. injection H as H. lia.
Qed.

Lemma canonical_shown (l : list ident) : Forall canonical l -> shown_valid l.
Proof. intros H. eapply Forall_impl; [|exact H]. now intros i [Hi _]. Qed.

Lemma match_FULL_prerelease (s : string) (m : groups) :
  match_FULL s = Some m ->
  match m4 m with
  | Some p => forallb PRERELEASEIDENTIFIER (split_on "." p) = true
  | None => True
  end.
Proof.
  unfold match_FULL.
  destruct (cut_at "+" (strip_v s)) as [mp b].
  destruct (cut_at "-" mp) as [main p].
  destruct (split_on "." main) as [|x [|y [|z [|? ?]]]]; try discriminate.
  destruct (NUMERICIDENTIFIER x && NUMERICIDENTIFIER y && NUMERICIDENTIFIER z
            && match p with
               | Some ps => forallb PRERELEASEIDENTIFIER (split_on "." ps)
               | None => true
               end
            && match b with
               | Some bs => forallb BUILDIDENTIFIER (split_on "." bs)
               | None => true
               end) eqn:E; [|discriminate].
  intros H. injection H as <-. simpl.
  apply andb_true_iff in E as [E _]. apply andb_true_iff in E as [_ E].
  destruct p; [exact E | exact I].
Qed.

Lemma new_SemVer_well_formed (version : jsval) (v : SemVer) :
  new_SemVer version = Ok v -> well_formed v.
Proof.
  unfold new_SemVer. destruct version as [| |s]; try discriminate.
  destruct (Nat.ltb MAX_LENGTH (String.length s)); [discriminate|].
  destruct (match_FULL (trim s)) as [m|] eqn:Em; [|discriminate].
  destruct (MAX_SAFE_INTEGER <? to_num (m1 m)) eqn:E1; [discriminate|].
  destruct (MAX_SAFE_INTEGER <? to_num (m2 m)) eqn:E2; [discriminate|].
  destruct (MAX_SAFE_INTEGER <? to_num (m3 m)) eqn:E3; [discriminate|].
  intros H. injection H as <-.
  apply N.ltb_ge in E1, E2, E3.
  constructor; simpl; try assumption.
  apply match_FULL_prerelease in Em.
  destruct (m4 m) as [p|]; [|constructor].
  apply Forall_map, Forall_forall. intros i Hi. apply numberify_canonical.
  rewrite forallb_forall in Em. now apply Em.
Qed.

Lemma new_SemVer_format (x : SemVer) :
  shown_valid (v_prerelease x) ->
  within_limits x = true ->
  new_SemVer (JStr (format x)) = Ok (reread x).
Proof.
  intros Hs Hl. unfold within_limits in Hl.
  apply andb_true_iff in Hl as [Hl Hlen]. apply andb_true_iff in Hl as [Hl H3].
  apply andb_true_iff in Hl as [H1 H2].
  apply N.leb_le in H1, H2, H3. apply Nat.leb_le in Hlen.
  unfold new_SemVer.
  assert (Nat.ltb MAX_LENGTH (String.length (format x)) = false) as ->
    by (apply Nat.ltb_ge; exact Hlen).
  rewrite trim_format, match_FULL_format by assumption. simpl.
  rewrite !to_num_dec by assumption.
  assert (forall n, n <= MAX_SAFE_INTEGER -> (MAX_SAFE_INTEGER <? n) = false) as Hn
    by (intros n Hn; now apply N.ltb_ge).
  rewrite !Hn by assumption.
  unfold reread, pre_part. f_equal. f_equal.
  destruct (v_prerelease x) as [|i l] eqn:E; [reflexivity|].
  rewrite split_pre by (congruence || assumption).
  now rewrite map_map.
Qed.

Lemma new_SemVer_format_inv (x y : SemVer) :
  shown_valid (v_prerelease x) ->
  v_major x <= MAX_SAFE_INTEGER + 1 ->
  v_minor x <= MAX_SAFE_INTEGER + 1 ->
  v_patch x <= MAX_SAFE_INTEGER + 1 ->
  new_SemVer (JStr (format x)) = Ok y ->
  within_limits x = true.
Proof.
  intros Hs H1 H2 H3. unfold new_SemVer.
  destruct (Nat.ltb MAX_LENGTH (String.length (format x))) eqn:Hlen; [discriminate|].
  apply Nat.ltb_ge in Hlen.
  rewrite trim_format, match_FULL_format by assumption. simpl.
  assert (forall n, n <= MAX_SAFE_INTEGER + 1 ->
                    (MAX_SAFE_INTEGER <? to_num (dec n)) = false ->
                    (n <=? MAX_SAFE_INTEGER) = true) as Hn.
  { intros n Hn Hlt. apply N.leb_le. apply N.ltb_ge in Hlt.
    destruct (N.eq_dec n (MAX_SAFE_INTEGER + 1)) as [->|Hne]; [|lia].
    rewrite to_num_dec_next in Hlt. vm_compute in Hlt. now elim Hlt. }
  destruct (MAX_SAFE_INTEGER <? to_num (dec (v_major x))) eqn:E1; [discriminate|].
  destruct (MAX_SAFE_INTEGER <? to_num (dec (v_minor x))) eqn:E2; [discriminate|].
  destruct (MAX_SAFE_INTEGER <? to_num (dec (v_patch x))) eqn:E3; [discriminate|].
  intros _. unfold within_limits.
  rewrite (Hn _ H1 E1), (Hn _ H2 E2), (Hn _ H3 E3). simpl.
  now apply Nat.leb_le.
Qed.

(** ** Increments and the ordering *)




Lemma show_numberify_dec (n : N) :
  n <= MAX_SAFE_INTEGER -> show (numberify (dec n)) = dec n.
Proof.
  intros H. unfold numberify. rewrite all_digits_dec, to_num_dec by assumption.
  now destruct (n <? MAX_SAFE_INTEGER).
Qed.


Lemma shown_valid_Num (n : N) (l : list ident) :
  shown_valid l -> shown_valid (Num n :: l).
Proof. intros H. constructor; [apply PRERELEASE_dec | exact H]. Qed.

Lemma inc_rightmost_shown (l l' : list ident) :
  shown_valid l -> inc_rightmost l = Some l' -> shown_valid l'.
Proof.
  revert l'. induction l as [|x r IH]; intros l' H E; [discriminate|].
  inversion H as [|? ? Hx Hr]; subst. simpl in E.
  destruct (inc_rightmost r) as [r'|].
  - injection E as <-. constructor; [exact Hx | now apply IH].
  - destruct x as [n|s]; [|discriminate]. injection E as <-.
    now apply shown_valid_Num.
Qed.

Lemma shown_valid_push (l : list ident) :
  shown_valid l -> shown_valid (l ++ [Num 0]).
Proof.
  intros H. apply Forall_app. split; [exact H|].
  apply shown_valid_Num. constructor.
Qed.

Lemma inc_pre_shown (v : SemVer) :
  shown_valid (v_prerelease v) ->
  shown_valid (v_prerelease (inc_pre v JUndefined)).
Proof.
  intros H. unfold inc_pre, set_prerelease. cbn [v_prerelease].
  destruct (v_prerelease v) as [|i l] eqn:E.
  - apply shown_valid_Num. constructor.
  - destruct (inc_rightmost (i :: l)) as [l'|] eqn:El.
    + now apply (inc_rightmost_shown (i :: l)).
    + now apply shown_valid_push.
Qed.

Lemma inc_release_shown (v v' : SemVer) (level : string) :
  shown_valid (v_prerelease v) ->
  inc_release v level JUndefined = Ok v' ->
  shown_valid (v_prerelease v').
Proof.
  intros H. unfold inc_release.
  repeat match goal with
         | |- context [if (level =? ?s)%string then _ else _] =>
             destruct (level =? s)%string
         end;
    intros E; try discriminate; injection E as <-;
    try (apply inc_pre_shown; simpl);
    try solve [constructor | exact H | simpl; constructor].
  destruct (v_prerelease v) eqn:Ev; simpl; [constructor | now rewrite Ev].
Qed.

Lemma inc_release_bounds (v v' : SemVer) (level : string) :
  well_formed v ->
  inc_release v level JUndefined = Ok v' ->
  v_major v' <= MAX_SAFE_INTEGER + 1 /\ v_minor v' <= MAX_SAFE_INTEGER + 1
  /\ v_patch v' <= MAX_SAFE_INTEGER + 1.
Proof.
  intros [H1 H2 H3 _]. unfold inc_release, inc_pre, inc_patch, set_prerelease.
  repeat match goal with
         | |- context [if (level =? ?s)%string then _ else _] =>
             destruct (level =? s)%string
         end;
    intros E; try discriminate; injection E as <-; simpl;
    repeat match goal with
           | |- context [if ?b then _ else _] => destruct b
           | |- context [match v_prerelease v with _ => _ end] =>
               destruct (v_prerelease v)
           end; simpl; unfold MAX_SAFE_INTEGER in *; lia.
Qed.

(** The ['pre'] step on a prerelease array read from a string. *)







Lemma inc_rightmost_nonempty (l l' : list ident) :
  inc_rightmost l = Some l' -> l' <> [].
Proof.
  destruct l as [|x r]; [discriminate|]. simpl.
  destruct (inc_rightmost r); [intros E; injection E as <-; discriminate|].
  destruct x; [intros E; injection E as <-; discriminate | discriminate].
Qed.


(** ** The planner *)

Lemma prerelease_shape (version : jsval) :
  match Semver.prerelease version with
  | Some [] => False
  | _ => True
  end.
Proof.
  unfold Semver.prerelease. destruct (parse version) as [v|]; [|exact I].
  destruct (v_prerelease v); exact I.
Qed.

Lemma plan_names (cur : jsval) (level : string) (preId : jsval) (info : VersionInfo) :
  generateNextVersion cur level preId = Ok info ->
  version info = Semver.inc cur level preId
  /\ exists next,
       new_SemVer (version info) = Ok next
       /\ minorVer info = "v" ++ dec (v_major next) ++ "." ++ dec (v_minor next)
       /\ releaseBranchName info
          = ("release-" ++ minorVer info)
            ++ match Semver.prerelease (version info) with
               | Some (i :: _) => "-" ++ show i
               | _ => ""
               end.
Proof.
  unfold generateNextVersion, Semver.major, Semver.minor.
  destruct (new_SemVer (Semver.inc cur level preId)) as [next|e] eqn:E;
    [|discriminate].
  intros H. injection H as <-. cbn [version]. split; [reflexivity|].
  exists next. split; [exact E|]. cbn [minorVer releaseBranchName].
  split; [reflexivity|].
  pose proof (prerelease_shape (Semver.inc cur level preId)) as Hs.
  destruct (Semver.prerelease (Semver.inc cur level preId)) as [[|i l]|];
    [contradiction | reflexivity | now rewrite append_nil_r].
Qed.

Lemma levels_increment (v : SemVer) (level : string) :
  In level levels -> exists v', inc_release v level JUndefined = Ok v'.
Proof.
  unfold levels. simpl.
  intros [<-|[<-|[<-|[<-|[<-|[<-|[]]]]]]]; eexists; reflexivity.
Qed.

Lemma inc_string (cur level : string) (v v' : SemVer) :
  new_SemVer (JStr cur) = Ok v ->
  inc_release v level JUndefined = Ok v' ->
  Semver.inc (JStr cur) level JUndefined = JStr (format v').
Proof. intros Hv Hv'. unfold Semver.inc. now rewrite Hv, Hv'. Qed.

Lemma parse_format (x : SemVer) :
  shown_valid (v_prerelease x) ->
  within_limits x = true ->
  Semver.parse (JStr (format x)) = Some (reread x).
Proof.
  intros Hs Hl. unfold Semver.parse.
  rewrite (new_SemVer_format x Hs Hl), (match_FULL_format x Hs).
  unfold within_limits in Hl. apply andb_true_iff in Hl as [_ Hlen].
  apply Nat.leb_le in Hlen.
  assert (Nat.ltb MAX_LENGTH (String.length (format x)) = false) as ->
    by (apply Nat.ltb_ge; exact Hlen).
  reflexivity.
Qed.

(** When the planner returns on a valid version and one of the six levels:
    exactly when the incremented version is itself within the limits of
    [new SemVer]. *)
Lemma plan_returns (cur level : string) (v v' : SemVer) :
  new_SemVer (JStr cur) = Ok v ->
  inc_release v level JUndefined = Ok v' ->
  (within_limits v' = true ->
   exists info, generateNextVersion (JStr cur) level JUndefined = Ok info)
  /\ (forall info,
        generateNextVersion (JStr cur) level JUndefined = Ok info ->
        within_limits v' = true
        /\ version info = JStr (format v')
        /\ new_SemVer (version info) = Ok (reread v')
        /\ spec_names (reread v') info).
Proof.
  intros Hv Hv'.
  pose proof (new_SemVer_well_formed _ _ Hv) as Hwf.
  pose proof (inc_release_shown _ _ _ (canonical_shown _ (wf_prerelease _ Hwf)) Hv')
    as Hs.
  destruct (inc_release_bounds _ _ _ Hwf Hv') as (B1 & B2 & B3).
  split.
  - intros Hl. unfold generateNextVersion, Semver.major, Semver.minor.
    rewrite (inc_string _ _ _ _ Hv Hv'), (new_SemVer_format _ Hs Hl).
    eexists. reflexivity.
  - intros info H. apply plan_names in H as (Hver & next & Hnext & Hminor & Hbranch).
    rewrite (inc_string _ _ _ _ Hv Hv') in Hver.
    rewrite Hver in *.
    pose proof (new_SemVer_format_inv _ _ Hs B1 B2 B3 Hnext) as Hl.
    pose proof (new_SemVer_format _ Hs Hl) as Hre.
    assert (next = reread v') as -> by congruence.
    repeat split; try assumption.
    rewrite Hbranch. f_equal. unfold Semver.prerelease.
    rewrite (parse_format _ Hs Hl).
    destruct (v_prerelease (reread v')); reflexivity.
Qed.

(** C2. Whatever the planner returns, its version is the one [semver.inc]
    computed, its label is [v<major>.<minor>] of that version, and its
    branch name is [release-<label>], followed by [-<identifier>] for the
    first prerelease identifier exactly when [semver.prerelease] finds a
    prerelease component.  On a valid current version and one of the six
    levels the planner does return, with these names, whenever the
    incremented version is within the limits of the semver package.  From
    1.2.3 at level minor it yields 1.3.0, v1.3 and release-v1.3; from 1.3.0
    at level prerelease with identifier beta it yields 1.3.1-beta.0, whose
    prerelease component starts with beta, and the branch
    release-v1.3-beta. *)
Theorem planner_names :
  (forall (cur : jsval) (level : string) (preId : jsval) (info : VersionInfo),
      generateNextVersion cur level preId = Ok info ->
      version info = Semver.inc cur level preId
      /\ exists next,
           new_SemVer (version info) = Ok next
           /\ minorVer info = "v" ++ dec (v_major next) ++ "." ++ dec (v_minor next)
           /\ releaseBranchName info
              = ("release-" ++ minorVer info)
                ++ match Semver.prerelease (version info) with
                   | Some (i :: _) => "-" ++ show i
                   | _ => ""
                   end)
  /\ (forall (cur level : string) (v : SemVer),
         new_SemVer (JStr cur) = Ok v ->
         In level levels ->
         exists v',
           inc_release v level JUndefined = Ok v'
           /\ (within_limits v' = true ->
               exists info,
                 generateNextVersion (JStr cur) level JUndefined = Ok info
                 /\ version info = JStr (format v')
                 /\ new_SemVer (version info) = Ok (reread v')
                 /\ spec_names (reread v') info))
  /\ generateNextVersion (JStr "1.2.3") "minor" JUndefined
     = Ok (mkVersionInfo (JStr "1.3.0") "v1.3" "release-v1.3")
  /\ generateNextVersion (JStr "1.3.0") "prerelease" (JStr "beta")
     = Ok (mkVersionInfo (JStr "1.3.1-beta.0") "v1.3" "release-v1.3-beta")
  /\ Semver.prerelease (JStr "1.3.1-beta.0") = Some [Str "beta"; Num 0].
Proof.
  split; [|split; [|repeat split; reflexivity]].
  - intros cur level preId info H. now apply plan_names.
  - intros cur level v Hv Hin.
    destruct (levels_increment v level Hin) as [v' Hv'].
    exists v'. split; [exact Hv'|]. intros Hl.
    destruct (plan_returns _ _ _ _ Hv Hv') as [Hret Hinfo].
    destruct (Hret Hl) as [info H]. exists info.
    destruct (Hinfo info H) as (_ & Hver & Hnext & Hnames). auto.
Qed.

Lemma planner_names_witness :
  exists v',
    inc_release (mkSemVer 1 2 3 [] []) "minor" JUndefined = Ok v'
    /\ (within_limits v' = true ->
        exists info,
          generateNextVersion (JStr "1.2.3") "minor" JUndefined = Ok info
          /\ version info = JStr (format v')
          /\ new_SemVer (version info) = Ok (reread v')
          /\ spec_names (reread v') info).
Proof.
  destruct planner_names as (_ & H & _).
  apply (H "1.2.3" "minor" (mkSemVer 1 2 3 [] [])).
  - reflexivity.
  - simpl. auto.
Defined.

(** ** Plans made with an identifier *)

Lemma inc_pre_nonempty (x : SemVer) (identifier : jsval) :
  v_prerelease (inc_pre x identifier) <> [].
Proof.
  unfold inc_pre, set_prerelease. cbn [v_prerelease].
  assert (match v_prerelease x with
          | [] => [Num 0]
          | _ :: _ => match inc_rightmost (v_prerelease x) with
                      | Some l' => l'
                      | None => (v_prerelease x ++ [Num 0])%list
                      end
          end <> []) as Hpr.
  { destruct (v_prerelease x) as [|i l] eqn:E; [discriminate|].
    destruct (inc_rightmost (i :: l)) as [l'|] eqn:El.
    - now apply inc_rightmost_nonempty in El.
    - discriminate. }
  destruct (v_prerelease x) as [|i l]; cbn [app] in *.
  - destruct identifier; try discriminate.
    destruct (truthy (JStr s)); cbn; discriminate.
  - destruct (inc_rightmost (i :: l)) as [l'|];
      (destruct identifier; try exact Hpr);
      (destruct (truthy (JStr s)); [|exact Hpr]);
      match goal with
      | |- (if ?c then _ else _) <> [] =>
          destruct c; [destruct (isNaN_at1 _); [discriminate | exact Hpr]
                      | discriminate]
      end.
Qed.
















(** ** Runs of the workflows *)

Lemma forEach_console_log (f : Commit -> string) (l : list Commit) (st : State) :
  forEach l (fun c => console_log (f c)) st
  = (Ok tt, extend st (map (fun c => EvConsoleLog (f c)) l)).
Proof.
  revert st. induction l as [|c l IH]; intros st.
  - simpl. unfold ret, extend. rewrite List.app_nil_r. now destruct st.
  - simpl. unfold bind at 1. unfold console_log at 1, emit at 1.
    rewrite IH. unfold extend. simpl. now rewrite <- List.app_assoc.
Qed.

Lemma approveDiff_run (w : World) (repo : Repository) (cur next : jsval) (st : State) :
  approveDiff w repo cur next st
  = match w_revwalk w repo (range_of cur next) with
    | Ok commits =>
        (Ok (mkApproval (confirm false (w_answer w))),
         extend st (review_events repo (range_of cur next) commits))
    | Throw e => (Throw e, extend st [EvRevwalk repo (range_of cur next)])
    end.
Proof.
  unfold approveDiff. fold (range_of cur next).
  unfold bind at 1. unfold emit at 1. unfold bind at 1. unfold lift at 1.
  destruct (w_revwalk w repo (range_of cur next)) as [commits|e]; [|reflexivity].
  unfold bind at 1. unfold console_log at 1, emit at 1.
  unfold bind at 1. rewrite forEach_console_log.
  unfold bind, console_log, emit, ret, extend, review_events, commit_line. simpl.
  rewrite <- !List.app_assoc. reflexivity.
Qed.

Lemma getCreds_run (w : World) (remote : Remote) (st : State) :
  getCreds w remote st
  = match w_gchAvailable w with
    | Throw e => (Throw e, extend st [EvGchAvailable])
    | Ok available =>
        if String.prefix "git" (url remote) then (Ok None, extend st [EvGchAvailable])
        else if negb available
        then (Throw helper_unavailable, extend st [EvGchAvailable])
        else match w_gchFill w (url remote) with
             | Ok c => (Ok (Some c),
                        extend st [EvGchAvailable; EvGchFill (url remote) true])
             | Throw e => (Throw e,
                           extend st [EvGchAvailable; EvGchFill (url remote) true])
             end
    end.
Proof.
  unfold getCreds, gchAvailable, gchFill, bind, emit, lift, ret, throw, extend.
  simpl. destruct (w_gchAvailable w) as [a|e]; [|reflexivity].
  destruct (String.prefix "git" (url remote)); [reflexivity|].
  destruct a; simpl; [|reflexivity].
  destruct (w_gchFill w (url remote)); simpl; rewrite <- List.app_assoc; reflexivity.
Qed.

Lemma pushes_app (a b : list event) : pushes (a ++ b) = (pushes a ++ pushes b)%list.
Proof.
  induction a as [|e a IH]; [reflexivity|].
  destruct e; simpl; now rewrite IH.
Qed.

Lemma pushes_review (repo : Repository) (range : string) (commits : list Commit) :
  pushes (review_events repo range commits) = [].
Proof.
  unfold review_events. simpl. rewrite pushes_app. simpl.
  rewrite List.app_nil_r. induction commits; simpl; auto.
Qed.

Lemma walked_app (a b : list event) : walked (a ++ b) = (walked a ++ walked b)%list.
Proof.
  induction a as [|e a IH]; [reflexivity|].
  destruct e; simpl; now rewrite IH.
Qed.

Lemma walked_review (repo : Repository) (range : string) (commits : list Commit) :
  walked (review_events repo range commits) = [(repo, range)].
Proof.
  unfold review_events. simpl. f_equal. rewrite walked_app. simpl.
  rewrite List.app_nil_r. induction commits; simpl; auto.
Qed.

#[local] Arguments generateNextVersion : simpl never.
#[local] Arguments review_events : simpl never.
#[local] Arguments String.append : simpl never.
#[local] Arguments String.prefix : simpl never.

Ltac world_case :=
  match goal with
  | |- context [match w_open ?w ?p with _ => _ end] =>
      destruct (w_open w p) as [[]|?] eqn:?
  | |- context [match w_remote ?w ?r ?n with _ => _ end] =>
      destruct (w_remote w r n) eqn:?
  | |- context [match w_gchAvailable ?w with _ => _ end] =>
      destruct (w_gchAvailable w) as [[]|?] eqn:?
  | |- context [if String.prefix ?a ?b then _ else _] =>
      destruct (String.prefix a b) eqn:?
  | |- context [match w_gchFill ?w ?u with _ => _ end] =>
      destruct (w_gchFill w u) eqn:?
  | |- context [match w_tmpdir ?w with _ => _ end] =>
      destruct (w_tmpdir w) eqn:?
  | |- context [match w_clone ?w ?u ?p with _ => _ end] =>
      destruct (w_clone w u p) as [[]|?] eqn:?
  | |- context [match w_version ?w ?p with _ => _ end] =>
      destruct (w_version w p) eqn:?
  | |- context [match generateNextVersion ?c ?l ?p with _ => _ end] =>
      destruct (generateNextVersion c l p) eqn:?
  | |- context [match w_revwalk ?w ?r ?g with _ => _ end] =>
      destruct (w_revwalk w r g) eqn:?
  | |- context [match w_exec ?w ?c ?d with _ => _ end] =>
      destruct (w_exec w c d) as [[]|?] eqn:?
  | |- context [if confirm ?d ?a then _ else _] =>
      destruct (confirm d a) eqn:?
  | |- context [match w_push ?w ?r ?s with _ => _ end] =>
      destruct (w_push w r s) eqn:?
  end.

Ltac norm :=
  cbv beta iota zeta
    delta [bind Repository_open getRemote tmp_dirSync Clone getVersion
           logger_info execSync push emit lift ret throw cutReleaseBranch
           tagVersion fst snd trace dirs initial extend negb lgtm url].

Ltac run :=
  norm;
  repeat (first [ rewrite getCreds_run | rewrite approveDiff_run | world_case ];
          norm).

Ltac trace_facts :=
  cbn [trace dirs];
  rewrite ?pushes_app, ?walked_app, ?pushes_review, ?walked_review;
  cbn [pushes walked app].

(** C1. A cut that ends normally after an approved review has pushed
    exactly three refspecs, in one push, to the remote [origin] of the
    scratch clone: master to master, master to the new release branch, and
    the new tag to itself; the range it presented for review is
    [v<current>..master], for the current version read from the clone's
    manifest.  From version 2.4.0 at level minor the branch is
    release-v2.5, the tag v2.5.0 and the range v2.4.0..master, and a run
    on a clone at 2.4.0 pushes exactly these. *)
Theorem cut_pushes_three_refs (w : World) (args : Args) (msg : string) (st' : State) :
  cutReleaseBranch w args initial = (Ok msg, st') ->
  confirm false (w_answer w) = true ->
  (exists dir origin cur info creds,
      w_tmpdir w = Ok dir
      /\ w_remote w (RepoAt dir) "origin" = Ok origin
      /\ w_version w ((if truthy (JStr dir) then dir else w_cwd w)
                      ++ "/package.json") = Ok cur
      /\ generateNextVersion cur (level args) (preid args) = Ok info
      /\ msg = "Done!"
      /\ pushes (trace st')
         = [(mkRemote (RepoAt dir) "origin" origin,
             [ "refs/heads/master:refs/heads/master";
               "refs/heads/master:refs/heads/" ++ releaseBranchName info;
               "refs/tags/v" ++ to_String (version info) ++ ":refs/tags/v"
                 ++ to_String (version info) ],
             makeGitOpts creds)]
      /\ map snd (walked (trace st')) = ["v" ++ to_String cur ++ "..master"])
  /\ generateNextVersion (JStr "2.4.0") "minor" JUndefined
     = Ok (mkVersionInfo (JStr "2.5.0") "v2.5" "release-v2.5")
  /\ range_of (JStr "2.4.0") JUndefined = "v2.4.0..master"
  /\ pushes (trace (snd (cutReleaseBranch (ssh_world (Some true) (PushResolves []))
                           cut_minor initial)))
     = [(mkRemote (RepoAt scratch) "origin" "git@host:repo.git",
         [ "refs/heads/master:refs/heads/master";
           "refs/heads/master:refs/heads/release-v2.5";
           "refs/tags/v2.5.0:refs/tags/v2.5.0" ],
         makeGitOpts None)].
Proof.
  intros Hrun Happroved.
  split; [|repeat split; vm_compute; reflexivity].
  revert Hrun. run; intros E; try discriminate E;
    try congruence; apply pair_equal_spec in E as [E1 <-]; injection E1 as <-.
  all: do 5 eexists; repeat (split; [eassumption || reflexivity|]);
    trace_facts; repeat split; try reflexivity.
Qed.

Lemma cut_pushes_three_refs_witness :
  (exists dir origin cur info creds,
      w_tmpdir (ssh_world (Some true) (PushResolves [])) = Ok dir
      /\ w_remote (ssh_world (Some true) (PushResolves [])) (RepoAt dir) "origin"
         = Ok origin
      /\ w_version (ssh_world (Some true) (PushResolves []))
           ((if truthy (JStr dir) then dir else
               w_cwd (ssh_world (Some true) (PushResolves [])))
            ++ "/package.json") = Ok cur
      /\ generateNextVersion cur (level cut_minor) (preid cut_minor) = Ok info
      /\ "Done!" = "Done!"
      /\ pushes (trace (snd (cutReleaseBranch (ssh_world (Some true) (PushResolves []))
                               cut_minor initial)))
         = [(mkRemote (RepoAt dir) "origin" origin,
             [ "refs/heads/master:refs/heads/master";
               "refs/heads/master:refs/heads/" ++ releaseBranchName info;
               "refs/tags/v" ++ to_String (version info) ++ ":refs/tags/v"
                 ++ to_String (version info) ],
             makeGitOpts creds)]
      /\ map snd (walked (trace (snd (cutReleaseBranch
                                        (ssh_world (Some true) (PushResolves []))
                                        cut_minor initial))))
         = ["v" ++ to_String cur ++ "..master"])
  /\ generateNextVersion (JStr "2.4.0") "minor" JUndefined
     = Ok (mkVersionInfo (JStr "2.5.0") "v2.5" "release-v2.5")
  /\ range_of (JStr "2.4.0") JUndefined = "v2.4.0..master"
  /\ pushes (trace (snd (cutReleaseBranch (ssh_world (Some true) (PushResolves []))
                           cut_minor initial)))
     = [(mkRemote (RepoAt scratch) "origin" "git@host:repo.git",
         [ "refs/heads/master:refs/heads/master";
           "refs/heads/master:refs/heads/release-v2.5";
           "refs/tags/v2.5.0:refs/tags/v2.5.0" ],
         makeGitOpts None)].
Proof.
  apply (cut_pushes_three_refs (ssh_world (Some true) (PushResolves [])) cut_minor).
  - vm_compute. reflexivity.
  - reflexivity.
Defined.

Ltac hyp_facts H :=
  cbn [trace dirs] in H;
  rewrite ?pushes_app, ?walked_app, ?pushes_review, ?walked_review in H;
  cbn [pushes walked app In] in H.

(** C4, as the code has it.  Neither workflow looks at what the remote
    did with each reference: whenever a run performs a push, that push is
    its last step, and the outcome is [Done!] as soon as the push call
    resolves, whichever references were refused; only a push call that
    rejects as a whole ends the run with that error. *)
Theorem push_outcome_ignores_refusals :
  (forall (w : World) (args : Args) (r : result string) (st' : State)
          (remote : Remote) (refs : list string) (opts : GitOpts),
      cutReleaseBranch w args initial = (r, st') ->
      In (remote, refs, opts) (pushes (trace st')) ->
      r = match w_push w remote refs with
          | PushRejects e => Throw e
          | PushResolves _ => Ok "Done!"
          end)
  /\ (forall (w : World) (args : Args) (r : result string) (st' : State)
             (remote : Remote) (refs : list string) (opts : GitOpts),
         tagVersion w args initial = (r, st') ->
         In (remote, refs, opts) (pushes (trace st')) ->
         r = match w_push w remote refs with
             | PushRejects e => Throw e
             | PushResolves _ => Ok "Done!"
             end).
Proof.
  split; intros w args r st' remote refs opts Hrun;
    revert Hrun; run; intros E; apply pair_equal_spec in E as [<- <-];
    intros Hin; hyp_facts Hin; try contradiction;
    destruct Hin as [Hin|[]]; injection Hin as <- <- <-; congruence.
Qed.

Lemma push_outcome_ignores_refusals_witness :
  fst (cutReleaseBranch
         (ssh_world (Some true) (PushResolves ["refs/heads/release-v2.5"]))
         cut_minor initial)
  = Ok "Done!".
Proof.
  destruct push_outcome_ignores_refusals as [Hcut _].
  apply (Hcut (ssh_world (Some true) (PushResolves ["refs/heads/release-v2.5"]))
           cut_minor _
           (snd (cutReleaseBranch
                   (ssh_world (Some true) (PushResolves ["refs/heads/release-v2.5"]))
                   cut_minor initial))
           (mkRemote (RepoAt scratch) "origin" "git@host:repo.git")
           [ "refs/heads/master:refs/heads/master";
             "refs/heads/master:refs/heads/release-v2.5";
             "refs/tags/v2.5.0:refs/tags/v2.5.0" ]
           (makeGitOpts None)).
  - vm_compute. reflexivity.
  - vm_compute. left. reflexivity.
Defined.

(** C4, as the claim states it, fails: in a cut whose remote refuses one
    of the three references of the plan, the push call resolves and the
    workflow ends with its success message. *)
Lemma refused_ref_reported_as_done :
  let w := ssh_world (Some true) (PushResolves ["refs/heads/release-v2.5"]) in
  w_push w (mkRemote (RepoAt scratch) "origin" "git@host:repo.git")
    [ "refs/heads/master:refs/heads/master";
      "refs/heads/master:refs/heads/release-v2.5";
      "refs/tags/v2.5.0:refs/tags/v2.5.0" ]
  = PushResolves ["refs/heads/release-v2.5"]
  /\ pushes (trace (snd (cutReleaseBranch w cut_minor initial)))
     = [(mkRemote (RepoAt scratch) "origin" "git@host:repo.git",
         [ "refs/heads/master:refs/heads/master";
           "refs/heads/master:refs/heads/release-v2.5";
           "refs/tags/v2.5.0:refs/tags/v2.5.0" ],
         makeGitOpts None)]
  /\ fst (cutReleaseBranch w cut_minor initial) = Ok "Done!".
Proof. repeat split; vm_compute; reflexivity. Qed.

(** ** Credential resolution *)

(** C5, as the code has it.  For a remote whose URL starts with [git],
    credential resolution asks the helper whether it is available, then
    returns [null] whatever the answer, and never calls the helper's
    [fill]. *)
Theorem ssh_url_skips_fill (w : World) (remote : Remote) (available : bool) :
  String.prefix "git" (url remote) = true ->
  w_gchAvailable w = Ok available ->
  getCreds w remote initial = (Ok None, mkState [EvGchAvailable] []).
Proof.
  intros Hgit Ha. rewrite getCreds_run, Ha, Hgit. reflexivity.
Qed.

Lemma ssh_url_skips_fill_witness :
  getCreds (ssh_world None (PushResolves []))
    (mkRemote (RepoAt ".") "origin" "git@host:repo.git") initial
  = (Ok None, mkState [EvGchAvailable] []).
Proof.
  apply (ssh_url_skips_fill (ssh_world None (PushResolves []))
           (mkRemote (RepoAt ".") "origin" "git@host:repo.git") false);
    reflexivity.
Defined.

(** C5, as the claim states it, fails: resolving the credentials of
    [git@host:repo.git] returns [null], but only after the helper has been
    asked whether it is available. *)
Lemma ssh_url_consults_helper :
  let run := getCreds (ssh_world None (PushResolves []))
               (mkRemote (RepoAt ".") "origin" "git@host:repo.git") initial in
  fst run = Ok None
  /\ filter is_helper (trace (snd run)) = [EvGchAvailable].
Proof. split; vm_compute; reflexivity. Qed.

(** C10. The protocol is decided by whether the URL starts with [git] and
    by nothing else.  Once the helper has answered the availability query:
    a URL that starts with [git] yields [null] and no lookup; any other URL
    fails with the "helper not available" error when the helper is
    unavailable, and otherwise yields whatever the helper's [fill] gives
    for that URL, queried silently.  [git@host:repo.git] and
    [git://host/repo.git] are of the first kind, [ssh://git@host/repo.git]
    and [https://host/repo.git] of the second. *)
Theorem protocol_decided_by_git_prefix (w : World) (remote : Remote)
    (available : bool) (st : State) :
  w_gchAvailable w = Ok available ->
  getCreds w remote st
  = (if String.prefix "git" (url remote)
     then (Ok None, extend st [EvGchAvailable])
     else if available
     then (match w_gchFill w (url remote) with
           | Ok c => Ok (Some c)
           | Throw e => Throw e
           end,
           extend st [EvGchAvailable; EvGchFill (url remote) true])
     else (Throw helper_unavailable, extend st [EvGchAvailable]))
  /\ String.prefix "git" "git@host:repo.git" = true
  /\ String.prefix "git" "git://host/repo.git" = true
  /\ String.prefix "git" "ssh://git@host/repo.git" = false
  /\ String.prefix "git" "https://host/repo.git" = false.
Proof.
  intros Ha. split; [|repeat split; reflexivity].
  rewrite getCreds_run, Ha.
  destruct (String.prefix "git" (url remote)); [reflexivity|].
  destruct available; cbn [negb]; [|reflexivity].
  destruct (w_gchFill w (url remote)); reflexivity.
Qed.

Lemma protocol_decided_by_git_prefix_witness :
  fst (getCreds (https_world false)
         (mkRemote (RepoAt ".") "origin" "ssh://git@host/repo.git") initial)
  = Throw helper_unavailable.
Proof.
  destruct (protocol_decided_by_git_prefix (https_world false)
              (mkRemote (RepoAt ".") "origin" "ssh://git@host/repo.git")
              false initial eq_refl) as [H _].
  rewrite H. reflexivity.
Defined.

Lemma helper_review (repo : Repository) (range : string) (commits : list Commit) :
  filter is_helper (review_events repo range commits) = [].
Proof.
  unfold review_events. cbn [app filter is_helper]. rewrite filter_app.
  cbn [filter is_helper]. rewrite List.app_nil_r.
  induction commits; simpl; auto.
Qed.

Lemma asked_app (a b : list event) : asked (a ++ b) = asked a || asked b.
Proof. apply existsb_app. Qed.

Lemma asked_review (repo : Repository) (range : string) (commits : list Commit) :
  asked (review_events repo range commits) = true.
Proof.
  unfold review_events, asked. cbn [app existsb]. rewrite existsb_app.
  cbn [existsb]. now rewrite orb_true_r.
Qed.

Lemma created_app (a b : list event) : created (a ++ b) = (created b ++ created a)%list.
Proof.
  induction a as [|e a IH]; simpl; [now rewrite List.app_nil_r|].
  destruct e; simpl; rewrite IH; try reflexivity. now rewrite List.app_assoc.
Qed.

Lemma created_review (repo : Repository) (range : string) (commits : list Commit) :
  created (review_events repo range commits) = [].
Proof.
  unfold review_events. simpl. rewrite created_app. simpl.
  induction commits; simpl; auto.
Qed.

Ltac split_trace :=
  cbn [trace]; rewrite <- ?List.app_assoc; cbn [app];
  match goal with
  | |- exists pre post,
        ?a :: ?b :: ?c :: EvGchFill ?u ?s :: ?rest = _ /\ _ =>
      exists [a; b; c; EvGchFill u s], rest
  | |- exists pre post, ?a :: ?b :: EvGchAvailable :: ?rest = _ /\ _ =>
      exists [a; b; EvGchAvailable], rest
  | |- exists pre post, ?t = _ /\ _ => exists t, []
  end.

Ltac resolved :=
  split;
  [ cbn [In]; repeat (first [left; reflexivity | right])
  | do 2 eexists; split; [first [reflexivity | eassumption]|];
    rewrite getCreds_run; cbn [url];
    repeat match goal with
           | H : w_gchAvailable _ = _ |- _ => rewrite H
           | H : String.prefix _ _ = _ |- _ => rewrite H
           | H : w_gchFill _ _ = _ |- _ => rewrite H
           end;
    cbn [negb fst]; reflexivity ].

Lemma credentials_first_cut (w : World) (args : Args) :
  credentials_first w args (trace (snd (cutReleaseBranch w args initial))).
Proof.
  unfold credentials_first.
  destruct (cutReleaseBranch w args initial) as [r st'] eqn:E. revert E.
  run; intros E; apply pair_equal_spec in E as [_ <-]; cbn [snd];
    split_trace;
    (split; [rewrite ?List.app_nil_r; reflexivity|]);
    (split; [reflexivity|]);
    (split; [cbn [filter is_helper]; rewrite ?filter_app, ?helper_review;
             reflexivity|]);
    intros Hne; first [now elim Hne | resolved].
Qed.

Lemma credentials_first_tag (w : World) (args : Args) :
  credentials_first w args (trace (snd (tagVersion w args initial))).
Proof.
  unfold credentials_first.
  destruct (tagVersion w args initial) as [r st'] eqn:E. revert E.
  run; intros E; apply pair_equal_spec in E as [_ <-]; cbn [snd];
    split_trace;
    (split; [rewrite ?List.app_nil_r; reflexivity|]);
    (split; [reflexivity|]);
    (split; [cbn [filter is_helper]; rewrite ?filter_app, ?helper_review;
             reflexivity|]);
    intros Hne; first [now elim Hne | resolved].
Qed.

(** C6. When the upstream URL does not start with [git] and the helper
    answers that it is unavailable, both workflows fail with the "helper
    not available" error right after that answer, having attempted no
    clone and no push.  In every run of either workflow, every call to the
    credential helper comes before every clone or push, and a clone or push
    happens only after credential resolution has returned. *)
Theorem helper_unavailable_stops_before_network :
  (forall (w : World) (args : Args) (u : string),
      w_open w "." = Ok tt ->
      w_remote w (RepoAt ".") (upstream args) = Ok u ->
      String.prefix "git" u = false ->
      w_gchAvailable w = Ok false ->
      cutReleaseBranch w args initial
      = (Throw helper_unavailable,
         mkState [EvRepositoryOpen "."; EvGetRemote (RepoAt ".") (upstream args);
                  EvGchAvailable] [])
      /\ tagVersion w args initial
         = (Throw helper_unavailable,
            mkState [EvRepositoryOpen "."; EvGetRemote (RepoAt ".") (upstream args);
                     EvGchAvailable] []))
  /\ (forall (w : World) (args : Args),
         credentials_first w args (trace (snd (cutReleaseBranch w args initial)))
         /\ credentials_first w args (trace (snd (tagVersion w args initial)))).
Proof.
  split.
  - intros w args u Hopen Hremote Hgit Hhelper.
    split; norm; rewrite Hopen; norm; rewrite Hremote; norm;
      rewrite getCreds_run, Hhelper; cbn [url]; rewrite Hgit; reflexivity.
  - intros w args. split; [apply credentials_first_cut | apply credentials_first_tag].
Qed.

Lemma helper_unavailable_stops_before_network_witness :
  cutReleaseBranch (https_world false) cut_minor initial
  = (Throw helper_unavailable,
     mkState [EvRepositoryOpen "."; EvGetRemote (RepoAt ".") "origin";
              EvGchAvailable] [])
  /\ tagVersion (https_world false) cut_minor initial
     = (Throw helper_unavailable,
        mkState [EvRepositoryOpen "."; EvGetRemote (RepoAt ".") "origin";
                 EvGchAvailable] []).
Proof.
  destruct helper_unavailable_stops_before_network as [H _].
  apply (H (https_world false) cut_minor "https://host/repo.git"); reflexivity.
Defined.

(** ** The review gate *)

Ltac asked_facts H :=
  cbn [trace] in H; rewrite ?asked_app, ?asked_review in H;
  cbn [asked existsb orb] in H.

(** C7, as the code has it.  The confirmation prompt defaults to [false]:
    with no explicit answer the decision is a rejection.  In both workflows
    a rejected review performs no push; a tag that reached the prompt ends
    normally with its "aborted" message, and so does a cut, unless the
    version bump that the cut runs right after the prompt fails on its own,
    in which case the run ends with that command's error.  An outcome
    message is logged at level [info], not as an error. *)
Theorem review_gate_fails_closed :
  confirm false None = false
  /\ (forall (w : World) (args : Args) (r : result string) (st' : State),
         confirm false (w_answer w) = false ->
         cutReleaseBranch w args initial = (r, st') ->
         pushes (trace st') = []
         /\ (asked (trace st') = true ->
             r = Ok cut_aborted
             \/ exists dir e,
                  w_tmpdir w = Ok dir
                  /\ w_exec w (bump_command args) (Some dir) = Throw e
                  /\ r = Throw e))
  /\ (forall (w : World) (args : Args) (r : result string) (st' : State),
         confirm false (w_answer w) = false ->
         tagVersion w args initial = (r, st') ->
         pushes (trace st') = []
         /\ (asked (trace st') = true -> r = Ok tag_aborted))
  /\ (forall (fn : Args -> M string) (args : Args) (msg : string) (st' : State),
         fn args initial = (Ok msg, st') ->
         trace (wrap fn args initial) = (trace st' ++ [EvLogger "info" [msg]])%list).
Proof.
  split; [reflexivity|]. split; [|split].
  - intros w args r st' Hno. run; intros E; apply pair_equal_spec in E as [<- <-];
      try congruence; (split; [trace_facts; reflexivity|]);
      intros Hasked; asked_facts Hasked; try discriminate Hasked.
    all: first [ left; reflexivity
               | right; do 2 eexists; repeat split; eassumption ].
  - intros w args r st' Hno. run; intros E; apply pair_equal_spec in E as [<- <-];
      try congruence; (split; [trace_facts; reflexivity|]);
      intros Hasked; asked_facts Hasked; try discriminate Hasked; reflexivity.
  - intros fn args msg st' H. unfold wrap. rewrite H. reflexivity.
Qed.

Lemma review_gate_fails_closed_witness :
  pushes (trace (snd (cutReleaseBranch (ssh_world None (PushResolves []))
                        cut_minor initial))) = []
  /\ fst (cutReleaseBranch (ssh_world None (PushResolves [])) cut_minor initial)
     = Ok cut_aborted
  /\ fst (tagVersion (ssh_world None (PushResolves [])) cut_minor initial)
     = Ok tag_aborted.
Proof.
  destruct review_gate_fails_closed as (_ & Hcut & Htag & _).
  destruct (Hcut (ssh_world None (PushResolves [])) cut_minor
              (fst (cutReleaseBranch (ssh_world None (PushResolves [])) cut_minor initial))
              (snd (cutReleaseBranch (ssh_world None (PushResolves [])) cut_minor initial))
              eq_refl) as [Hp Ha].
  { vm_compute. reflexivity. }
  destruct (Htag (ssh_world None (PushResolves [])) cut_minor
              (fst (tagVersion (ssh_world None (PushResolves [])) cut_minor initial))
              (snd (tagVersion (ssh_world None (PushResolves [])) cut_minor initial))
              eq_refl) as [_ Ht].
  { vm_compute. reflexivity. }
  split; [exact Hp|]. split.
  - destruct (Ha eq_refl) as [H|(dir & e & _ & He & _)]; [exact H|].
    vm_compute. reflexivity.
  - exact (Ht eq_refl).
Defined.

(** C7, as the claim states it, fails: in a cut whose review is rejected
    (no answer given, so the default) and whose [npm version] command fails,
    the prompt was asked, and the run ends with the command's error instead
    of the "aborted" message; [wrap] logs it at level [error], and nothing
    at level [info] tells of an abort. *)
Lemma rejected_cut_ends_in_error :
  let w := failing_bump (ssh_world None (PushResolves [])) in
  confirm false (w_answer w) = false
  /\ asked (trace (snd (cutReleaseBranch w cut_minor initial))) = true
  /\ fst (cutReleaseBranch w cut_minor initial)
     = Throw (Error "Command failed: npm version minor")
  /\ Survey.logged "error" (trace (wrap (cutReleaseBranch w) cut_minor initial))
     = [["Error: Command failed: npm version minor"]]
  /\ ~ In [cut_aborted]
       (Survey.logged "info" (trace (wrap (cutReleaseBranch w) cut_minor initial))).
Proof.
  cbv zeta. repeat split; try (vm_compute; reflexivity).
  vm_compute. intros H. repeat (destruct H as [H|H]; [discriminate H|]). exact H.
Qed.

(** ** The scratch directory *)







(** ** The history under review *)

(** C9 fails on the code.  In a checkout that is one commit behind its
    remote, the cut walks and prints the history of the repository opened
    at [.], which lacks [c2], although the clone it publishes from has it:
    [approveDiff] is handed [repo], not [clonedRepo]. *)
Theorem cut_reviews_local_repository :
  let w := ssh_world (Some true) (PushResolves []) in
  let st := snd (cutReleaseBranch w cut_minor initial) in
  walked (trace st) = [(RepoAt ".", "v2.4.0..master")]
  /\ console (trace st)
     = ["--- START COMMIT LOG v2.4.0..master ---";
        "[Mon Mar 05 2018 10:00:00] (Ada) Fix parser";
        "--- END COMMIT LOG v2.4.0..master ---"]
  /\ w_revwalk w (RepoAt scratch) "v2.4.0..master" = Ok [c2; c1]
  /\ map (fun p => remote_repo (fst (fst p))) (pushes (trace st)) = [RepoAt scratch].
Proof. repeat split; vm_compute; reflexivity. Qed.

(** * The rest of the program *)

Import Survey.

(** ** The planner on bad input and on patch plans *)

Lemma inc_release_unknown (v : SemVer) (level : string) (identifier : jsval) :
  ~ In level release_types ->
  inc_release v level identifier
  = Throw (Error ("invalid increment argument: " ++ level)).
Proof.
  intros Hnot. unfold inc_release.
  repeat match goal with
         | |- context [if (level =? ?s)%string then _ else _] =>
             destruct (String.eqb_spec level s) as [->|_];
             [elim Hnot; unfold release_types; simpl; tauto|]
         end.
  reflexivity.
Qed.

Lemma plan_needs_increment (cur : jsval) (level : string) (preId : jsval) :
  Semver.inc cur level preId = JNull ->
  generateNextVersion cur level preId = Throw (TypeError "Invalid Version: null").
Proof. intros H. unfold generateNextVersion. rewrite H. reflexivity. Qed.

(** X1. The planner fails with the type error [Invalid Version: null],
    which names neither input, whenever the current version is not one
    [new SemVer] accepts or the level is not a release type of the semver
    package, whatever the identifier. *)
Theorem plan_rejects_bad_input (cur : jsval) (level : string) (preId : jsval) :
  (exists e, new_SemVer cur = Throw e) \/ ~ In level release_types ->
  generateNextVersion cur level preId = Throw (TypeError "Invalid Version: null").
Proof.
  intros H. apply plan_needs_increment. unfold Semver.inc.
  destruct H as [[e He]|Hlevel].
  - now rewrite He.
  - destruct (new_SemVer cur); [|reflexivity].
    now rewrite inc_release_unknown.
Qed.

Lemma plan_rejects_bad_input_witness :
  generateNextVersion (JStr "1.2") "minor" JUndefined
  = Throw (TypeError "Invalid Version: null")
  /\ generateNextVersion (JStr "1.2.3") "patsh" (JStr "beta")
     = Throw (TypeError "Invalid Version: null").
Proof.
  split.
  - apply (plan_rejects_bad_input (JStr "1.2") "minor" JUndefined).
    left. eexists. reflexivity.
  - apply (plan_rejects_bad_input (JStr "1.2.3") "patsh" (JStr "beta")).
    right. unfold release_types. simpl.
    intros H. repeat (destruct H as [H|H]; [discriminate H|]). exact H.
Defined.

Lemma append_same_l (a b : string) : a ++ b = a -> b = "".
Proof.
  induction a as [|c a IH]; simpl; [auto|].
  intros H. injection H as H. auto.
Qed.

Lemma format_release (M m p : N) (b : list string) :
  format (mkSemVer M m p [] b) = dec M ++ "." ++ dec m ++ "." ++ dec p.
Proof. unfold format. cbn [v_major v_minor v_patch v_prerelease]. now rewrite append_nil_r. Qed.

Lemma patch_plan (cur : string) (v : SemVer) (info : VersionInfo) :
  new_SemVer (JStr cur) = Ok v ->
  generateNextVersion (JStr cur) "patch" JUndefined = Ok info ->
  version info
  = JStr (dec (v_major v) ++ "." ++ dec (v_minor v) ++ "."
          ++ dec (match v_prerelease v with
                  | [] => v_patch v + 1
                  | _ => v_patch v
                  end))
  /\ minorVer info = "v" ++ dec (v_major v) ++ "." ++ dec (v_minor v)
  /\ releaseBranchName info = "release-" ++ minorVer info.
Proof.
  intros Hv H.
  assert (inc_release v "patch" JUndefined = Ok (inc_patch v)) as Hinc by reflexivity.
  destruct (plan_returns _ _ _ _ Hv Hinc) as [_ Hinfo].
  destruct (Hinfo info H) as (_ & Hver & _ & Hminor & Hbranch).
  cbn [reread inc_patch v_major v_minor v_prerelease map] in Hminor, Hbranch.
  rewrite append_nil_r in Hbranch.
  unfold inc_patch in Hver. rewrite format_release in Hver. auto.
Qed.

(** X2. A patch plan stays on the release line of the current version:
    from a valid version M.m.p it yields M.m.(p+1), or M.m.p when the
    current version is a prerelease, with the label vM.m and the branch
    release-vM.m, which never carries a prerelease suffix. *)
Theorem patch_plan_keeps_release_line (cur : string) (v : SemVer) (info : VersionInfo) :
  new_SemVer (JStr cur) = Ok v ->
  generateNextVersion (JStr cur) "patch" JUndefined = Ok info ->
  version info
  = JStr (dec (v_major v) ++ "." ++ dec (v_minor v) ++ "."
          ++ dec (match v_prerelease v with
                  | [] => v_patch v + 1
                  | _ => v_patch v
                  end))
  /\ minorVer info = "v" ++ dec (v_major v) ++ "." ++ dec (v_minor v)
  /\ releaseBranchName info
     = "release-v" ++ dec (v_major v) ++ "." ++ dec (v_minor v).
Proof.
  intros Hv H. destruct (patch_plan _ _ _ Hv H) as (Hver & Hminor & Hbranch).
  rewrite Hbranch, Hminor. auto.
Qed.

Lemma patch_plan_keeps_release_line_witness :
  version (mkVersionInfo (JStr "1.3.0") "v1.3" "release-v1.3")
  = JStr (dec 1 ++ "." ++ dec 3 ++ "." ++ dec 0)
  /\ minorVer (mkVersionInfo (JStr "1.3.0") "v1.3" "release-v1.3")
     = "v" ++ dec 1 ++ "." ++ dec 3
  /\ releaseBranchName (mkVersionInfo (JStr "1.3.0") "v1.3" "release-v1.3")
     = "release-v" ++ dec 1 ++ "." ++ dec 3.
Proof.
  apply (patch_plan_keeps_release_line "1.3.0-beta.2"
           (mkSemVer 1 3 0 [Str "beta"; Num 2] [])
           (mkVersionInfo (JStr "1.3.0") "v1.3" "release-v1.3"));
    reflexivity.
Defined.

Lemma increment_prerelease_shape (v v' : SemVer) (level : string) :
  inc_release v level JUndefined = Ok v' ->
  (In level ["major"; "minor"; "patch"] -> v_prerelease v' = [])
  /\ (In level pre_levels -> v_prerelease v' <> []).
Proof.
  intros H. split; intros Hin; simpl in Hin.
  - destruct Hin as [<-|[<-|[<-|[]]]]; cbn in H; injection H as <-; reflexivity.
  - destruct Hin as [<-|[<-|[<-|[<-|[]]]]]; cbn in H; injection H as <-;
      apply inc_pre_nonempty.
Qed.

(** X3. How a cut's plan and the patch plan of the following tag fit
    together.  Planned without identifier from a valid version, then
    planned again at level patch from the version obtained, the label is the
    same, and the branch of the first plan is the branch of the second
    followed by the suffix of the first version's prerelease component: the
    same branch after a major, minor or patch plan, a different one after
    a premajor, preminor, prepatch or prerelease plan. *)
Theorem tag_branch_after_cut (cur level : string) (v : SemVer)
    (info1 info2 : VersionInfo) :
  new_SemVer (JStr cur) = Ok v ->
  In level (levels ++ ["prepatch"]) ->
  generateNextVersion (JStr cur) level JUndefined = Ok info1 ->
  generateNextVersion (version info1) "patch" JUndefined = Ok info2 ->
  minorVer info2 = minorVer info1
  /\ (exists next,
        new_SemVer (version info1) = Ok next
        /\ releaseBranchName info1
           = releaseBranchName info2 ++ branch_suffix (v_prerelease next))
  /\ (In level ["major"; "minor"; "patch"] ->
      releaseBranchName info2 = releaseBranchName info1)
  /\ (In level pre_levels ->
      releaseBranchName info2 <> releaseBranchName info1).
Proof.
  intros Hv Hin H1 H2.
  assert (exists v', inc_release v level JUndefined = Ok v') as [v' Hv'].
  { apply in_app_or in Hin as [Hin|[<-|[]]].
    - now apply levels_increment.
    - eexists. reflexivity. }
  destruct (plan_returns _ _ _ _ Hv Hv') as [_ Hinfo].
  destruct (Hinfo info1 H1) as (_ & Hver & Hnext & Hminor1 & Hbranch1).
  rewrite Hver in H2, Hnext.
  destruct (patch_plan _ _ _ Hnext H2) as (_ & Hminor2 & Hbranch2).
  assert (minorVer info2 = minorVer info1) as Hsame by congruence.
  assert (releaseBranchName info1
          = releaseBranchName info2 ++ branch_suffix (v_prerelease (reread v')))
    as Hrel.
  { rewrite Hbranch1, Hbranch2, Hsame. reflexivity. }
  destruct (increment_prerelease_shape _ _ _ Hv') as [Hrelease Hpre].
  split; [exact Hsame|]. split; [|split].
  - exists (reread v'). rewrite Hver. auto.
  - intros Hl. rewrite Hrel. cbn [reread v_prerelease].
    rewrite (Hrelease Hl). cbn. now rewrite append_nil_r.
  - intros Hl E. rewrite <- E in Hrel. symmetry in Hrel.
    apply append_same_l in Hrel. cbn [reread v_prerelease] in Hrel.
    specialize (Hpre Hl). destruct (v_prerelease v'); [congruence|].
    cbn in Hrel. discriminate.
Qed.

Lemma tag_branch_after_cut_witness :
  minorVer (mkVersionInfo (JStr "1.3.0") "v1.3" "release-v1.3")
  = minorVer (mkVersionInfo (JStr "1.3.0-0") "v1.3" "release-v1.3-0")
  /\ (exists next,
        new_SemVer (version (mkVersionInfo (JStr "1.3.0-0") "v1.3" "release-v1.3-0"))
        = Ok next
        /\ releaseBranchName (mkVersionInfo (JStr "1.3.0-0") "v1.3" "release-v1.3-0")
           = releaseBranchName (mkVersionInfo (JStr "1.3.0") "v1.3" "release-v1.3")
             ++ branch_suffix (v_prerelease next))
  /\ (In "preminor" ["major"; "minor"; "patch"] ->
      releaseBranchName (mkVersionInfo (JStr "1.3.0") "v1.3" "release-v1.3")
      = releaseBranchName (mkVersionInfo (JStr "1.3.0-0") "v1.3" "release-v1.3-0"))
  /\ (In "preminor" pre_levels ->
      releaseBranchName (mkVersionInfo (JStr "1.3.0") "v1.3" "release-v1.3")
      <> releaseBranchName (mkVersionInfo (JStr "1.3.0-0") "v1.3" "release-v1.3-0")).
Proof.
  apply (tag_branch_after_cut "1.2.3" "preminor" (mkSemVer 1 2 3 [] [])).
  - reflexivity.
  - unfold levels. simpl. tauto.
  - reflexivity.
  - reflexivity.
Defined.

(** ** The identifier of a prerelease plan *)

Lemma strict_eq_true (a b : ident) : strict_eq a b = true -> a = b.
Proof.
  destruct a, b; simpl; try discriminate; intros H.
  - apply N.eqb_eq in H. congruence.
  - apply String.eqb_eq in H. congruence.
Qed.

Lemma inc_pre_identifier (x : SemVer) (id : string) :
  id <> "" ->
  v_prerelease (inc_pre x (JStr id)) = [Str id; Num 0]
  \/ exists l',
       v_prerelease (inc_pre x (JStr id)) = Str id :: l'
       /\ (v_prerelease x <> [] /\
           (inc_rightmost (v_prerelease x) = Some (Str id :: l')
            \/ (inc_rightmost (v_prerelease x) = None
                /\ Str id :: l' = (v_prerelease x ++ [Num 0])%list))).
Proof.
  intros Hid. unfold inc_pre, set_prerelease. cbn [v_prerelease truthy].
  apply String.eqb_neq in Hid. rewrite Hid. cbn [negb].
  destruct (v_prerelease x) as [|i l] eqn:E; [left; reflexivity|].
  destruct (inc_rightmost (i :: l)) as [[|j l']|] eqn:El.
  - left. reflexivity.
  - destruct (strict_eq j (Str id)) eqn:Ej; [|left; reflexivity].
    apply strict_eq_true in Ej. subst j.
    destruct (isNaN_at1 (Str id :: l')); [left; reflexivity|].
    right. exists l'. split; [reflexivity|]. split; [discriminate|]. now left.
  - cbn [app].
    destruct (strict_eq i (Str id)) eqn:Ei; [|left; reflexivity].
    apply strict_eq_true in Ei. subst i.
    destruct (isNaN_at1 (Str id :: (l ++ [Num 0])%list)); [left; reflexivity|].
    right. exists (l ++ [Num 0])%list. split; [reflexivity|].
    split; [discriminate|]. right. split; reflexivity.
Qed.

Lemma inc_pre_identifier_shown (x : SemVer) (id : string) :
  id <> "" ->
  PRERELEASEIDENTIFIER id = true ->
  shown_valid (v_prerelease x) ->
  shown_valid (v_prerelease (inc_pre x (JStr id))).
Proof.
  intros Hid Hvalid Hx.
  destruct (inc_pre_identifier x id Hid) as [->|(l' & -> & _ & [H|[_ H]])].
  - constructor; [exact Hvalid|]. apply shown_valid_Num. constructor.
  - eapply inc_rightmost_shown; eassumption.
  - rewrite H. now apply shown_valid_push.
Qed.

Lemma inc_pre_identifier_main (x : SemVer) (identifier : jsval) :
  v_major (inc_pre x identifier) = v_major x
  /\ v_minor (inc_pre x identifier) = v_minor x
  /\ v_patch (inc_pre x identifier) = v_patch x.
Proof. repeat split. Qed.

Lemma pre_level_increment (v v' : SemVer) (level id : string) :
  In level pre_levels ->
  inc_release v level (JStr id) = Ok v' ->
  exists x,
    v' = inc_pre x (JStr id)
    /\ (v_prerelease x = [] \/ v_prerelease x = v_prerelease v)
    /\ v_major x <= v_major v + 1 /\ v_minor x <= v_minor v + 1
    /\ v_patch x <= v_patch v + 1.
Proof.
  intros Hin H. simpl in Hin.
  destruct Hin as [<-|[<-|[<-|[<-|[]]]]]; cbn in H; injection H as <-;
    eexists; (split; [reflexivity|]); cbn.
  1-3: split; [now left|]; lia.
  destruct (v_prerelease v) eqn:E; cbn; rewrite ?E; (split; [tauto|]); lia.
Qed.

(** X4. At the levels premajor, preminor, prepatch and prerelease, an
    identifier that is a non-numeric prerelease identifier (such as beta)
    becomes the first prerelease identifier of the planned version and the
    suffix of the branch name: whenever the planner returns, the branch is
    [release-<label>-<identifier>].  An identifier that is not a non-empty
    string is ignored at every level, and any identifier is ignored at the
    levels major, minor and patch. *)
Theorem identifier_names_branch :
  (forall (cur : jsval) (level id : string) (info : VersionInfo),
      In level pre_levels ->
      NONNUMERICIDENTIFIER id = true ->
      generateNextVersion cur level (JStr id) = Ok info ->
      (exists rest, Semver.prerelease (version info) = Some (Str id :: rest))
      /\ releaseBranchName info = "release-" ++ minorVer info ++ "-" ++ id)
  /\ (forall (cur : jsval) (level : string) (preId : jsval),
         truthy preId = false ->
         generateNextVersion cur level preId
         = generateNextVersion cur level JUndefined)
  /\ (forall (cur : jsval) (level : string) (preId : jsval),
         In level ["major"; "minor"; "patch"] ->
         generateNextVersion cur level preId
         = generateNextVersion cur level JUndefined).
Proof.
  split; [|split].
  - intros cur level id info Hin Hid H.
    assert (id <> "") as Hne by (intros ->; discriminate).
    assert (PRERELEASEIDENTIFIER id = true) as Hvalid
      by (unfold PRERELEASEIDENTIFIER; rewrite Hid; apply orb_true_r).
    apply plan_names in H as (Hver & next & Hnext & _ & Hbranch).
    unfold Semver.inc in Hver.
    destruct (new_SemVer cur) as [v|e] eqn:Hv;
      [|rewrite Hver in Hnext; discriminate].
    destruct (inc_release v level (JStr id)) as [v'|e] eqn:Hv';
      [|rewrite Hver in Hnext; discriminate].
    pose proof (new_SemVer_well_formed _ _ Hv) as Hwf.
    destruct (pre_level_increment _ _ _ _ Hin Hv')
      as (x & -> & Hx & B1 & B2 & B3).
    assert (shown_valid (v_prerelease (inc_pre x (JStr id)))) as Hs.
    { apply inc_pre_identifier_shown; auto.
      destruct Hx as [->| ->]; [constructor|].
      apply canonical_shown, Hwf. }
    rewrite Hver in Hnext, Hbranch |- *.
    destruct Hwf as [W1 W2 W3 _].
    assert (within_limits (inc_pre x (JStr id)) = true) as Hl.
    { apply (new_SemVer_format_inv _ next Hs); [ | | | exact Hnext];
        cbn [inc_pre set_prerelease v_major v_minor v_patch];
        unfold MAX_SAFE_INTEGER in *; lia. }
    unfold Semver.prerelease in *. rewrite (parse_format _ Hs Hl) in *.
    cbn [reread v_prerelease] in *.
    assert (numberify id = Str id) as Hnum.
    { unfold numberify, all_digits. unfold NONNUMERICIDENTIFIER in Hid.
      apply andb_true_iff in Hid as [_ Hid]. apply negb_true_iff in Hid.
      now rewrite Hid, andb_false_r. }
    assert (exists l', v_prerelease (inc_pre x (JStr id)) = Str id :: l')
      as [l' Hl'].
    { destruct (inc_pre_identifier x id Hne) as [->|(l' & -> & _)]; eauto. }
    rewrite Hl' in *. cbn [map show] in *. rewrite Hnum in *. split.
    + eexists. reflexivity.
    + rewrite Hbranch. cbn [show]. now rewrite append_assoc.
  - intros cur level preId Hfalsy. unfold generateNextVersion.
    assert (Semver.inc cur level preId = Semver.inc cur level JUndefined) as ->;
      [|reflexivity].
    unfold Semver.inc. destruct preId as [| |s]; try reflexivity.
    destruct (new_SemVer cur) as [v|]; [|reflexivity].
    assert (forall x, inc_pre x (JStr s) = inc_pre x JUndefined) as Hpre.
    { intros x. unfold inc_pre. now rewrite Hfalsy. }
    unfold inc_release. now rewrite !Hpre.
  - intros cur level preId Hin. unfold generateNextVersion.
    assert (Semver.inc cur level preId = Semver.inc cur level JUndefined) as ->;
      [|reflexivity].
    unfold Semver.inc. destruct (new_SemVer cur) as [v|]; [|reflexivity].
    simpl in Hin. destruct Hin as [<-|[<-|[<-|[]]]]; reflexivity.
Qed.

Lemma identifier_names_branch_witness :
  (exists rest,
      Semver.prerelease
        (version (mkVersionInfo (JStr "2.0.0-rc.0") "v2.0" "release-v2.0-rc"))
      = Some (Str "rc" :: rest))
  /\ releaseBranchName (mkVersionInfo (JStr "2.0.0-rc.0") "v2.0" "release-v2.0-rc")
     = "release-"
       ++ minorVer (mkVersionInfo (JStr "2.0.0-rc.0") "v2.0" "release-v2.0-rc")
       ++ "-" ++ "rc".
Proof.
  destruct identifier_names_branch as [H _].
  apply (H (JStr "1.4.2") "premajor" "rc"); [simpl; tauto | reflexivity | reflexivity].
Defined.

(** ** The tag workflow *)

Lemma flat_map_review {A : Type} (f : event -> list A) (repo : Repository)
    (range : string) (commits : list Commit) :
  (forall line, f (EvConsoleLog line) = []) ->
  flat_map f (review_events repo range commits)
  = (f (EvRevwalk repo range)
     ++ f (EvPrompt "Does the commit log look good?" false))%list.
Proof.
  intros Hf. unfold review_events. cbn [app flat_map].
  rewrite Hf, flat_map_app. cbn [app flat_map]. rewrite Hf, List.app_nil_r.
  cbn [app]. f_equal.
  assert (flat_map f (map (fun c => EvConsoleLog (commit_line c)) commits) = [])
    as ->; [|reflexivity].
  induction commits as [|c l IH]; [reflexivity|]. cbn [map flat_map].
  now rewrite Hf, IH.
Qed.

Ltac survey :=
  cbn [trace dirs];
  unfold clones, network_opts, bumps_and_prompts, repositories, manifests, logged;
  rewrite ?flat_map_app;
  rewrite ?flat_map_review by (intro; reflexivity);
  cbn [flat_map app remote_repo String.eqb Ascii.eqb Bool.eqb].

Lemma planned_version_truthy (cur : jsval) (level : string) (preId : jsval)
    (info : VersionInfo) :
  generateNextVersion cur level preId = Ok info -> truthy (version info) = true.
Proof.
  intros H. apply plan_names in H as (_ & next & Hnext & _).
  destruct (version info) as [| |s]; try discriminate Hnext.
  destruct s; [discriminate Hnext | reflexivity].
Qed.

(** X5. A tag that ends normally after an approved review has made
    exactly one push, to the upstream remote of the repository at [.], of
    two refspecs: the release branch of the patch plan to itself and the new
    tag to itself, and no reference of the mainline.  The plan is the patch
    plan of the version in the manifest of the working directory, and the
    range presented for review is [v<current>..v<next>]. *)
Theorem tag_pushes_two_refs (w : World) (args : Args) (msg : string) (st' : State) :
  tagVersion w args initial = (Ok msg, st') ->
  confirm false (w_answer w) = true ->
  exists u cur info creds,
    w_remote w (RepoAt ".") (upstream args) = Ok u
    /\ w_version w (w_cwd w ++ "/package.json") = Ok cur
    /\ generateNextVersion cur "patch" JUndefined = Ok info
    /\ msg = "Done!"
    /\ pushes (trace st')
       = [(mkRemote (RepoAt ".") (upstream args) u,
           [ "refs/heads/" ++ releaseBranchName info ++ ":refs/heads/"
               ++ releaseBranchName info;
             "refs/tags/v" ++ to_String (version info) ++ ":refs/tags/v"
               ++ to_String (version info) ],
           makeGitOpts creds)]
    /\ map snd (walked (trace st'))
       = ["v" ++ to_String cur ++ "..v" ++ to_String (version info)].
Proof.
  intros Hrun Happroved.
  revert Hrun. run; intros E; try discriminate E;
    try congruence; apply pair_equal_spec in E as [E1 <-]; injection E1 as <-.
  all: do 4 eexists; repeat (split; [eassumption || reflexivity|]);
    trace_facts; split; [reflexivity|]; cbn [map snd]; unfold range_of;
    erewrite planned_version_truthy by eassumption; reflexivity.
Qed.

Lemma tag_pushes_two_refs_witness :
  exists u cur info creds,
    w_remote (ssh_world (Some true) (PushResolves [])) (RepoAt ".")
      (upstream cut_minor) = Ok u
    /\ w_version (ssh_world (Some true) (PushResolves []))
         (w_cwd (ssh_world (Some true) (PushResolves [])) ++ "/package.json")
       = Ok cur
    /\ generateNextVersion cur "patch" JUndefined = Ok info
    /\ "Done!" = "Done!"
    /\ pushes (trace (snd (tagVersion (ssh_world (Some true) (PushResolves []))
                             cut_minor initial)))
       = [(mkRemote (RepoAt ".") (upstream cut_minor) u,
           [ "refs/heads/" ++ releaseBranchName info ++ ":refs/heads/"
               ++ releaseBranchName info;
             "refs/tags/v" ++ to_String (version info) ++ ":refs/tags/v"
               ++ to_String (version info) ],
           makeGitOpts creds)]
    /\ map snd (walked (trace (snd (tagVersion
                                      (ssh_world (Some true) (PushResolves []))
                                      cut_minor initial))))
       = ["v" ++ to_String cur ++ "..v" ++ to_String (version info)].
Proof.
  apply (tag_pushes_two_refs (ssh_world (Some true) (PushResolves [])) cut_minor).
  - vm_compute. reflexivity.
  - reflexivity.
Defined.

(** X6. The tag workflow works on the caller's repository only: in every
    run it makes no clone and creates no scratch directory, every git call
    it makes is on the repository opened at [.], and the only manifest it
    reads is the one of the working directory. *)
Theorem tag_stays_local (w : World) (args : Args) :
  clones (trace (snd (tagVersion w args initial))) = []
  /\ created (trace (snd (tagVersion w args initial))) = []
  /\ dirs (snd (tagVersion w args initial)) = []
  /\ Forall (fun r => r = RepoAt ".")
       (repositories (trace (snd (tagVersion w args initial))))
  /\ Forall (fun p => p = w_cwd w ++ "/package.json")
       (manifests (trace (snd (tagVersion w args initial)))).
Proof.
  destruct (tagVersion w args initial) as [r st'] eqn:E. revert E.
  run; intros E; apply pair_equal_spec in E as [_ <-]; cbn [snd];
    (split; [survey; reflexivity|]);
    (split; [cbn [trace]; rewrite ?created_app, ?created_review; reflexivity|]);
    (split; [reflexivity|]);
    split; survey; repeat constructor.
Qed.

(** ** The order of bump and prompt *)

(** X7. The tag workflow bumps the version before it asks: in every run
    the bump command, run in the working directory, and the prompt occur in
    this order, each at most once, so a review that is asked about, and
    then rejected, finds the bump already made.  The cut workflow asks
    first, and then bumps whatever the answer: a run of the cut either ends
    before the prompt, with no bump, or has the prompt followed by the bump
    command, run in the scratch directory.  A cut whose review is rejected
    runs the bump all the same, and then reports the abort. *)
Theorem bump_and_prompt_order (w : World) (args : Args) :
  (exists n,
      bumps_and_prompts (trace (snd (tagVersion w args initial)))
      = firstn n [EvExecSync tag_bump_command None;
                  EvPrompt "Does the commit log look good?" false])
  /\ ((asked (trace (snd (cutReleaseBranch w args initial))) = false
       /\ bumps_and_prompts (trace (snd (cutReleaseBranch w args initial))) = [])
      \/ exists dir,
           w_tmpdir w = Ok dir
           /\ bumps_and_prompts (trace (snd (cutReleaseBranch w args initial)))
              = [EvPrompt "Does the commit log look good?" false;
                 EvExecSync (bump_command args) (Some dir)])
  /\ bumps_and_prompts
       (trace (snd (cutReleaseBranch (ssh_world None (PushResolves []))
                      cut_minor initial)))
     = [EvPrompt "Does the commit log look good?" false;
        EvExecSync (bump_command cut_minor) (Some scratch)]
  /\ fst (cutReleaseBranch (ssh_world None (PushResolves [])) cut_minor initial)
     = Ok cut_aborted.
Proof.
  split; [|split; [|split; vm_compute; reflexivity]].
  - destruct (tagVersion w args initial) as [r st'] eqn:E. revert E.
    run; intros E; apply pair_equal_spec in E as [_ <-]; cbn [snd]; survey;
      first [ now exists 0%nat | now exists 1%nat | now exists 2%nat ].
  - destruct (cutReleaseBranch w args initial) as [r st'] eqn:E. revert E.
    run; intros E; apply pair_equal_spec in E as [_ <-]; cbn [snd];
      first [ left; split; [cbn [trace]; rewrite ?asked_app; reflexivity
                           | survey; reflexivity]
            | right; eexists; split; [first [reflexivity | eassumption]|];
              survey; reflexivity ].
Qed.

(** ** At most one push, and last *)

(** X9. Every run of either workflow makes at most one push.  When it
    makes one, the push is the last call of the run, the prompt had been
    asked before it, and the answer was yes. *)
Theorem single_push_comes_last (w : World) (args : Args) :
  let closes (t : list event) :=
    pushes t = []
    \/ exists t0 remote refs opts,
         t = (t0 ++ [EvPush remote refs opts])%list
         /\ pushes t0 = []
         /\ asked t0 = true
         /\ confirm false (w_answer w) = true in
  closes (trace (snd (cutReleaseBranch w args initial)))
  /\ closes (trace (snd (tagVersion w args initial))).
Proof.
  cbv zeta. split.
  - destruct (cutReleaseBranch w args initial) as [r st'] eqn:E. revert E.
    run; intros E; apply pair_equal_spec in E as [_ <-]; cbn [snd trace];
      first [ left; trace_facts; reflexivity
            | right; do 4 eexists; split; [reflexivity|]; split;
              [trace_facts; reflexivity|]; split; [|first [reflexivity | assumption]];
              rewrite ?asked_app, ?asked_review; cbn [asked existsb orb];
              now rewrite ?orb_true_r ].
  - destruct (tagVersion w args initial) as [r st'] eqn:E. revert E.
    run; intros E; apply pair_equal_spec in E as [_ <-]; cbn [snd trace];
      first [ left; trace_facts; reflexivity
            | right; do 4 eexists; split; [reflexivity|]; split;
              [trace_facts; reflexivity|]; split; [|first [reflexivity | assumption]];
              rewrite ?asked_app, ?asked_review; cbn [asked existsb orb];
              now rewrite ?orb_true_r ].
Qed.

(** ** Credentials on the wire *)

(** X10. What [makeGitOpts] is given in a run is what [getCreds]
    returned: every clone and push of either workflow carries the same
    options, which accept any certificate ([certificateCheck] answers 1)
    and authenticate with a key from the ssh agent when the upstream URL
    starts with [git], and with the user name and password the helper
    filled in otherwise. *)
Theorem network_calls_use_resolved_credentials (w : World) (args : Args) (u : string) :
  w_remote w (RepoAt ".") (upstream args) = Ok u ->
  let expected :=
    mkGitOpts 1
      (if String.prefix "git" u then sshKeyFromAgent
       else match w_gchFill w u with
            | Ok c => userpassPlaintextNew (username c) (password c)
            | Throw _ => sshKeyFromAgent
            end) in
  Forall (fun o => o = expected)
    (network_opts (trace (snd (cutReleaseBranch w args initial))))
  /\ Forall (fun o => o = expected)
       (network_opts (trace (snd (tagVersion w args initial)))).
Proof.
  intros Hremote. cbv zeta.
  remember (mkGitOpts 1
              (if String.prefix "git" u then sshKeyFromAgent
               else match w_gchFill w u with
                    | Ok c => userpassPlaintextNew (username c) (password c)
                    | Throw _ => sshKeyFromAgent
                    end)) as expected eqn:Hexpected.
  split.
  - destruct (cutReleaseBranch w args initial) as [r st'] eqn:E. revert E.
    run; intros E; apply pair_equal_spec in E as [_ <-];
      try discriminate Hremote; try injection Hremote as <-;
      subst expected; cbn [snd]; survey;
      repeat match goal with
             | H : String.prefix _ _ = _ |- _ => rewrite H
             | H : w_gchFill _ _ = _ |- _ => rewrite H
             end;
      repeat constructor.
  - destruct (tagVersion w args initial) as [r st'] eqn:E. revert E.
    run; intros E; apply pair_equal_spec in E as [_ <-];
      try discriminate Hremote; try injection Hremote as <-;
      subst expected; cbn [snd]; survey;
      repeat match goal with
             | H : String.prefix _ _ = _ |- _ => rewrite H
             | H : w_gchFill _ _ = _ |- _ => rewrite H
             end;
      repeat constructor.
Qed.

Lemma network_calls_use_resolved_credentials_witness :
  Forall (fun o => o = mkGitOpts 1 (userpassPlaintextNew (JStr "ada") (JStr "s3cret")))
    (network_opts (trace (snd (cutReleaseBranch (https_world true) cut_minor initial))))
  /\ Forall (fun o => o = mkGitOpts 1 (userpassPlaintextNew (JStr "ada") (JStr "s3cret")))
       (network_opts (trace (snd (tagVersion (https_world true) cut_minor initial)))).
Proof.
  apply (network_calls_use_resolved_credentials (https_world true) cut_minor
           "https://host/repo.git").
  reflexivity.
Defined.

(** ** The cut works in its scratch directory *)

(** X11. A cut clones at most once, from the URL of the upstream remote
    of the repository at [.] into the directory [tmp.dirSync] made, and
    reads no manifest but the one in that directory (the working
    directory's only if the directory's name were empty). *)
Theorem cut_works_in_scratch (w : World) (args : Args) :
  (clones (trace (snd (cutReleaseBranch w args initial))) = []
   /\ manifests (trace (snd (cutReleaseBranch w args initial))) = [])
  \/ exists u dir opts,
       w_remote w (RepoAt ".") (upstream args) = Ok u
       /\ w_tmpdir w = Ok dir
       /\ created (trace (snd (cutReleaseBranch w args initial))) = [dir]
       /\ clones (trace (snd (cutReleaseBranch w args initial))) = [(u, dir, opts)]
       /\ Forall (fun p => p = (if truthy (JStr dir) then dir else w_cwd w)
                               ++ "/package.json")
            (manifests (trace (snd (cutReleaseBranch w args initial)))).
Proof.
  destruct (cutReleaseBranch w args initial) as [r st'] eqn:E. revert E.
  run; intros E; apply pair_equal_spec in E as [_ <-]; cbn [snd];
    first [ left; split; survey; reflexivity
          | right; do 3 eexists;
            split; [reflexivity|]; split; [reflexivity|];
            split; [cbn [trace]; rewrite ?created_app, ?created_review; reflexivity|];
            split; survey; [reflexivity | repeat constructor] ].
Qed.

(** ** What the review shows *)

Lemma console_app (a b : list event) :
  console (a ++ b) = (console a ++ console b)%list.
Proof.
  induction a as [|e a IH]; [reflexivity|].
  destruct e; simpl; now rewrite IH.
Qed.

Lemma console_review (repo : Repository) (range : string) (commits : list Commit) :
  console (review_events repo range commits)
  = ("--- START COMMIT LOG " ++ range ++ " ---")
    :: (map commit_line commits
        ++ [("--- END COMMIT LOG " ++ range ++ " ---")%string])%list.
Proof.
  unfold review_events. cbn [app console]. f_equal.
  rewrite console_app. cbn [console]. f_equal.
  induction commits as [|c l IH]; [reflexivity|]. cbn [map console]. now rewrite IH.
Qed.

(** X12. When the history walk succeeds, the review prints a start
    marker naming the range, then one line per commit, in the order of the
    walk, showing its date, author and message, then an end marker, and
    only then asks; its decision is the answer given, or [false] without
    one.  When the walk fails, the review ends with that error, having
    printed nothing and asked nothing.  The range runs from [v<current>] to
    [v<next>], and to [master] when no next version is given. *)
Theorem review_shows_every_commit :
  (forall (w : World) (repo : Repository) (cur next : jsval) (st : State)
          (commits : list Commit),
      w_revwalk w repo (range_of cur next) = Ok commits ->
      fst (approveDiff w repo cur next st)
      = Ok (mkApproval (match w_answer w with Some b => b | None => false end))
      /\ console (trace (snd (approveDiff w repo cur next st)))
         = (console (trace st)
            ++ ("--- START COMMIT LOG " ++ range_of cur next ++ " ---")%string
               :: map (fun c => ("[" ++ date c ++ "] (" ++ author c ++ ") "
                                 ++ message c)%string) commits
            ++ [("--- END COMMIT LOG " ++ range_of cur next ++ " ---")%string])%list
      /\ bumps_and_prompts (trace (snd (approveDiff w repo cur next st)))
         = (bumps_and_prompts (trace st)
            ++ [EvPrompt "Does the commit log look good?" false])%list
      /\ exists t, trace (snd (approveDiff w repo cur next st))
                   = (t ++ [EvPrompt "Does the commit log look good?" false])%list)
  /\ (forall (w : World) (repo : Repository) (cur next : jsval) (st : State)
             (e : error),
         w_revwalk w repo (range_of cur next) = Throw e ->
         fst (approveDiff w repo cur next st) = Throw e
         /\ console (trace (snd (approveDiff w repo cur next st)))
            = console (trace st)
         /\ bumps_and_prompts (trace (snd (approveDiff w repo cur next st)))
            = bumps_and_prompts (trace st))
  /\ (forall (cur next : jsval),
         range_of cur next
         = "v" ++ to_String cur ++ ".."
           ++ match next with
              | JStr (String c s) => "v" ++ String c s
              | _ => "master"
              end).
Proof.
  split; [|split].
  - intros w repo cur next st commits Hwalk.
    rewrite approveDiff_run, Hwalk. cbn [fst snd extend trace].
    split; [reflexivity|]. split; [|split].
    + now rewrite console_app, console_review.
    + unfold bumps_and_prompts. rewrite flat_map_app.
      now rewrite flat_map_review by (intro; reflexivity).
    + unfold review_events. rewrite !List.app_assoc.
      eexists. change [EvConsoleLog ("--- END COMMIT LOG " ++ range_of cur next ++ " ---");
                       EvPrompt "Does the commit log look good?" false]
        with ([EvConsoleLog ("--- END COMMIT LOG " ++ range_of cur next ++ " ---")%string]
              ++ [EvPrompt "Does the commit log look good?" false])%list.
      rewrite List.app_assoc. reflexivity.
  - intros w repo cur next st e Hwalk.
    rewrite approveDiff_run, Hwalk. cbn [fst snd extend trace].
    split; [reflexivity|]. split.
    + rewrite console_app. cbn. now rewrite List.app_nil_r.
    + unfold bumps_and_prompts. rewrite flat_map_app. cbn.
      now rewrite List.app_nil_r.
  - intros cur next. unfold range_of.
    destruct next as [| |[|c s]]; reflexivity.
Qed.

Lemma review_shows_every_commit_witness :
  fst (approveDiff (ssh_world None (PushResolves [])) (RepoAt scratch)
         (JStr "2.4.0") JUndefined initial)
  = Ok (mkApproval false)
  /\ console (trace (snd (approveDiff (ssh_world None (PushResolves []))
                            (RepoAt scratch) (JStr "2.4.0") JUndefined initial)))
     = ["--- START COMMIT LOG v2.4.0..master ---";
        "[Tue Mar 06 2018 11:00:00] (Bob) Add feature";
        "[Mon Mar 05 2018 10:00:00] (Ada) Fix parser";
        "--- END COMMIT LOG v2.4.0..master ---"].
Proof.
  destruct review_shows_every_commit as [H _].
  destruct (H (ssh_world None (PushResolves [])) (RepoAt scratch) (JStr "2.4.0")
              JUndefined initial [c2; c1] eq_refl) as (H1 & H2 & _).
  split; [exact H1 | exact H2].
Defined.

(** ** The outcome message *)

(** X13. Wrapped for the command line, each workflow logs its outcome
    last and exactly once: the message it returned at level [info], or the
    error it ended with at level [error]; the workflows themselves log
    nothing at level [error], so an error is logged exactly when the
    workflow failed. *)
Theorem outcome_logged_once (w : World) (args : Args) :
  let reported (fn : Args -> M string) :=
    trace (wrap fn args initial)
    = (trace (snd (fn args initial))
       ++ [match fst (fn args initial) with
           | Ok msg => EvLogger "info" [msg]
           | Throw e => EvLogger "error" [error_text e]
           end])%list
    /\ logged "error" (trace (wrap fn args initial))
       = match fst (fn args initial) with
         | Ok _ => []
         | Throw e => [[error_text e]]
         end in
  reported (cutReleaseBranch w) /\ reported (tagVersion w).
Proof.
  cbv zeta.
  assert (forall fn : Args -> M string,
             logged "error" (trace (snd (fn args initial))) = [] ->
             trace (wrap fn args initial)
             = (trace (snd (fn args initial))
                ++ [match fst (fn args initial) with
                    | Ok msg => EvLogger "info" [msg]
                    | Throw e => EvLogger "error" [error_text e]
                    end])%list
             /\ logged "error" (trace (wrap fn args initial))
                = match fst (fn args initial) with
                  | Ok _ => []
                  | Throw e => [[error_text e]]
                  end) as Hwrap.
  { intros fn Hquiet. unfold wrap.
    destruct (fn args initial) as [[msg|e] st']; cbn [fst snd emit trace] in *;
      (split; [reflexivity|]); unfold logged in *; rewrite flat_map_app, Hquiet;
      reflexivity. }
  split; apply Hwrap.
  - destruct (cutReleaseBranch w args initial) as [r st'] eqn:E. revert E.
    run; intros E; apply pair_equal_spec in E as [_ <-]; cbn [snd]; survey;
      reflexivity.
  - destruct (tagVersion w args initial) as [r st'] eqn:E. revert E.
    run; intros E; apply pair_equal_spec in E as [_ <-]; cbn [snd]; survey;
      reflexivity.
Qed.

(** ** The planned version is in canonical form *)

Lemma inc_rightmost_printable (l l' : list ident) :
  Forall canonical l -> inc_rightmost l = Some l' ->
  map show (map (fun i => numberify (show i)) l') = map show l'.
Proof.
  revert l'. induction l as [|x r IH]; intros l' H E; [discriminate|].
  inversion H as [|? ? Hx Hr]; subst. simpl in E.
  destruct (inc_rightmost r) as [r'|] eqn:Er.
  - injection E as <-. cbn [map]. rewrite (IH r' Hr eq_refl).
    destruct Hx as [_ Hx]. now rewrite Hx.
  - destruct x as [n|s]; [|discriminate]. injection E as <-.
    pose proof (canonical_Num n Hx) as Hn. cbn [map show].
    rewrite show_numberify_dec by lia. f_equal.
    clear - Hr. induction Hr as [|y l [_ Hy] Hl IHl]; [reflexivity|].
    cbn [map]. now rewrite Hy, IHl.
Qed.

Lemma canonical_printable (l : list ident) :
  Forall canonical l ->
  map show (map (fun i => numberify (show i)) l) = map show l.
Proof.
  induction 1 as [|y l [_ Hy] Hl IHl]; [reflexivity|].
  cbn [map]. now rewrite Hy, IHl.
Qed.

Lemma inc_pre_printable (x : SemVer) :
  Forall canonical (v_prerelease x) ->
  map show (map (fun i => numberify (show i)) (v_prerelease (inc_pre x JUndefined)))
  = map show (v_prerelease (inc_pre x JUndefined)).
Proof.
  intros H. unfold inc_pre, set_prerelease. cbn [v_prerelease].
  destruct (v_prerelease x) as [|i l] eqn:E; [reflexivity|].
  destruct (inc_rightmost (i :: l)) as [l'|] eqn:El.
  - now apply (inc_rightmost_printable (i :: l)).
  - rewrite !map_app, canonical_printable by assumption. reflexivity.
Qed.

Lemma increment_printable (v v' : SemVer) (level : string) :
  Forall canonical (v_prerelease v) ->
  inc_release v level JUndefined = Ok v' ->
  format (reread v') = format v'.
Proof.
  intros Hc H.
  assert (map show (map (fun i => numberify (show i)) (v_prerelease v'))
          = map show (v_prerelease v')) as Hp.
  { revert H. unfold inc_release.
    repeat match goal with
           | |- context [if (level =? ?s)%string then _ else _] =>
               destruct (level =? s)%string
           end;
      intros E; try discriminate; injection E as <-;
      try (apply inc_pre_printable; cbn [v_prerelease inc_patch set_prerelease]);
      try solve [constructor | exact Hc | reflexivity].
    destruct (v_prerelease v) eqn:Ev; [constructor|].
    cbn. rewrite Ev. exact Hc. }
  unfold format. cbn [reread v_major v_minor v_patch v_prerelease].
  destruct (v_prerelease v') as [|i l] eqn:E; [reflexivity|].
  rewrite <- Hp. reflexivity.
Qed.

(** X14. Planned without identifier from a valid version, the version
    the planner returns is in canonical form: [semver.parse] accepts it as
    it is, formatting the parsed version gives it back, and it carries no
    build metadata, whatever the current version string carried around its
    numbers (a leading [v], white space, build metadata). *)
Theorem planned_version_is_canonical (cur level : string) (v : SemVer)
    (info : VersionInfo) :
  new_SemVer (JStr cur) = Ok v ->
  generateNextVersion (JStr cur) level JUndefined = Ok info ->
  exists next,
    Semver.parse (version info) = Some next
    /\ version info = JStr (format next)
    /\ v_build next = [].
Proof.
  intros Hv H.
  assert (exists v', inc_release v level JUndefined = Ok v') as [v' Hv'].
  { apply plan_names in H as (Hver & next & Hnext & _).
    unfold Semver.inc in Hver. rewrite Hv in Hver.
    destruct (inc_release v level JUndefined) as [v'|e]; [eauto|].
    rewrite Hver in Hnext. discriminate. }
  pose proof (new_SemVer_well_formed _ _ Hv) as Hwf.
  pose proof (inc_release_shown _ _ _ (canonical_shown _ (wf_prerelease _ Hwf)) Hv')
    as Hs.
  destruct (plan_returns _ _ _ _ Hv Hv') as [_ Hinfo].
  destruct (Hinfo info H) as (Hl & Hver & _ & _).
  exists (reread v'). rewrite Hver. split; [now apply parse_format|].
  split; [|reflexivity].
  now rewrite (increment_printable v v' level (wf_prerelease _ Hwf) Hv').
Qed.

Lemma planned_version_is_canonical_witness :
  exists next,
    Semver.parse (version (mkVersionInfo (JStr "1.3.0") "v1.3" "release-v1.3"))
    = Some next
    /\ version (mkVersionInfo (JStr "1.3.0") "v1.3" "release-v1.3")
       = JStr (format next)
    /\ v_build next = [].
Proof.
  apply (planned_version_is_canonical " v1.2.3+exp.sha-5114f85 " "minor"
           (mkSemVer 1 2 3 [] ["exp"; "sha-5114f85"]));
    reflexivity.
Defined.
